(** * Tiger frontend: state store, derived views, command gateway, keyboard shortcuts

    A shallow embedding of the TypeScript sources

      - [stores/app.ts]            the Pinia store: state, the [patch] action, the getters
      - [api/document.ts]          the asynchronous command wrappers around [invoke]
      - the keyboard shortcut module: the [keydown] handler [onKeyDown]

    followed by the properties of the specification that concern them.

    Conventions.
      - A JavaScript object used as a dictionary is an association list of
        its own properties in the iteration order of [Object.values].  A
        property read [o[k]] finds an own property first and otherwise
        what every object inherits under that name, such as a member of
        [Object.prototype] ([JS.lookup]).  Which names are inherited is a
        parameter ([JS.Host]), so nothing depends on their list; the
        store's reactive wrapper is taken to pass reads through.
      - [null] and [undefined] are both [None] (or [JS.Absent]): every
        consumer in the sources only tests them for truthiness or with
        [!= null].  A [TypeError] raised by reading a property of
        [undefined] is [JS.Throws].
      - A [string] stands for a JavaScript string.  [toLowerCase] and [<]
        on strings are parameters too; [JS.plain] realises them for
        strings of ASCII characters, with [Object.prototype] as the only
        source of inherited names.
      - Numbers that index arrays are integers ([Z]). *)

From Stdlib Require Import String Ascii ZArith List Bool Lia Sorted Permutation.
From stdpp Require Import base option list strings pretty gmap.
Import ListNotations.

Local Open Scope Z_scope.
Set Warnings "-register-all".

(* ===================================================================== *)
(** ** JavaScript helpers *)
(* ===================================================================== *)

Module JS.

(** A plain object used as a map: its own properties, in
    [Object.values] order. *)
Definition Dict (A : Type) : Type := list (string * A).

(** [Object.values(o)]: a new array holding the values of [o]. *)
Definition objectValues {A} (o : Dict A) : list A := List.map snd o.

(** The own property [k] of [o], if it has one. *)
Fixpoint getProp {A} (o : Dict A) (k : string) : option A :=
  match o with
  | [] => None
  | (k', v) :: o' => if String.eqb k' k then Some v else getProp o' k
  end.

(** The property names every plain object inherits from
    [Object.prototype]. *)
Definition prototypeMembers : list string :=
  [ "constructor"; "hasOwnProperty"; "isPrototypeOf"; "propertyIsEnumerable";
    "toLocaleString"; "toString"; "valueOf"; "__proto__";
    "__defineGetter__"; "__defineSetter__"; "__lookupGetter__"; "__lookupSetter__" ].

Definition isPrototypeMember (k : string) : bool :=
  List.existsb (String.eqb k) prototypeMembers.

(** What the sources take from the JavaScript host: the two string
    operations they use, and the names under which a property read on a
    plain object finds a value that the object inherits. *)
Class Host := {
  toLowerCase : string -> string;          (* [s.toLowerCase()] *)
  lessThan : string -> string -> bool;     (* [a < b] *)
  inherited : string -> bool }.

(** What a property read [o[k]] on a plain object finds. *)
Inductive Property (A : Type) :=
| Own (v : A)              (* an own property: a value of the map *)
| Inherited (k : string)   (* what every object inherits under [k], such as
                              a member of [Object.prototype]: a function, or
                              the prototype itself; truthy, and without any
                              of the fields of a value of the map *)
| Absent.                  (* [undefined] *)

Arguments Own {A} v.
Arguments Inherited {A} k.
Arguments Absent {A}.

(** [o[k]] *)
Definition lookup `{Host} {A} (o : Dict A) (k : string) : Property A :=
  match getProp o k with
  | Some v => Own v
  | None => if inherited k then Inherited k else Absent
  end.

(** How the evaluation of an expression ends. *)
Inductive Completion (A : Type) :=
| Normal (v : A)   (* with a value *)
| Throws.          (* with a [TypeError] *)

Arguments Normal {A} v.
Arguments Throws {A}.

(** [a[i]] on an array: [undefined] outside [0 .. length-1]. *)
Definition arrayGet {A} (a : list A) (i : Z) : option A :=
  if i <? 0 then None else nth_error a (Z.to_nat i).

(** Truthiness of a [string | null]: present and not empty. *)
Definition truthyString (s : option string) : option string :=
  match s with
  | Some EmptyString => None
  | Some s' => Some s'
  | None => None
  end.

(** [!!x?.length] for an [Array | null]. *)
Definition hasLength {A} (x : option (list A)) : bool :=
  match x with
  | Some (_ :: _) => true
  | _ => false
  end.

(** [!!x?.length] where evaluating [x] may throw. *)
Definition lengthy {A} (x : Completion (option (list A))) : Completion bool :=
  match x with
  | Normal v => Normal (hasLength v)
  | Throws => Throws
  end.

(** [x || y] on booleans: [y] is evaluated only when [x] is false. *)
Definition orElse (x y : Completion bool) : Completion bool :=
  match x with
  | Normal true => Normal true
  | Normal false => y
  | Throws => Throws
  end.

(** [lessThan] is a strict total order, as [<] on strings is. *)
Definition StrictOrder (lt : string -> string -> bool) : Prop :=
  (forall a b, lt a b = true -> lt b a = false)
  /\ (forall a b c, lt b a = false -> lt c b = false -> lt c a = false).

Definition lowerAscii (c : ascii) : ascii :=
  let n := N_of_ascii c in
  if ((65 <=? n) && (n <=? 90))%N then ascii_of_N (n + 32) else c.

(** [toLowerCase] on a string of ASCII characters. *)
Fixpoint asciiLowerCase (s : string) : string :=
  match s with
  | EmptyString => EmptyString
  | String c s' => String (lowerAscii c) (asciiLowerCase s')
  end.

(** [a < b] on strings of ASCII characters: by character code. *)
Definition asciiLess (a b : string) : bool :=
  match String.compare a b with Lt => true | _ => false end.

(** Plain objects and strings of ASCII characters. *)
Definition plain : Host :=
  {| toLowerCase := asciiLowerCase;
     lessThan := asciiLess;
     inherited := isPrototypeMember |}.

(** Insertion of [x] in front of the first element that does not
    compare below it. *)
Fixpoint insertBy {A} (cmp : A -> A -> Z) (x : A) (l : list A) : list A :=
  match l with
  | [] => [x]
  | y :: l' => if 0 <? cmp x y then y :: insertBy cmp x l' else x :: y :: l'
  end.

(** The contents of an array after [Array.prototype.sort(cmp)]: the
    stable sort of its elements. *)
Definition sorted {A} (cmp : A -> A -> Z) (l : list A) : list A :=
  List.fold_right (insertBy cmp) [] l.

End JS.

(* ===================================================================== *)
(** ** Data model ([api/dto.ts]) *)
(* ===================================================================== *)

(** Modelled from the spec: the DTO declarations imported from
    [@/api/dto] are not among the sources.  The records below carry the
    fields that the store, the getters and the keyboard handler read, with
    the types the specification's data model gives them. *)

Module Hitbox.
Record t := mk { selected : bool }.
End Hitbox.

Module Keyframe.
Record t := mk {
  frame : string;
  hitboxes : list Hitbox.t;
  selected : bool }.
End Keyframe.

Module Sequence.
Record t := mk { keyframes : list Keyframe.t }.
End Sequence.

Module Animation.
Record t := mk {
  name : string;
  selected : bool;
  sequences : JS.Dict Sequence.t }.
End Animation.

Module Frame.
Record t := mk { path : string; selected : bool }.
End Frame.

Module Sheet.
Record t := mk {
  frames : list Frame.t;
  animations : JS.Dict Animation.t }.
End Sheet.

Module Document.
Record t := mk {
  path : string;
  sheet : Sheet.t;
  currentAnimationName : option string;
  currentSequenceDirection : option string;
  currentKeyframeIndex : option Z;
  timelineIsPlaying : bool;
  wasCloseRequested : bool;
  framesBeingRelocated : bool;
  exportSettingsBeingEdited : bool }.
End Document.

(** The error shown to the user: an object, truthy whenever present.
    The sources never read inside it; one text field stands for its
    contents. *)
Record UserFacingError := { message : string }.

Record AppState := {
  documents : list Document.t;
  currentDocumentPath : option string;
  recentDocumentPaths : list string;
  clipboardManifest : option string;
  isReleaseBuild : bool;
  error : option UserFacingError }.

(* ===================================================================== *)
(** ** The store's getters ([stores/app.ts], lines 28-128) *)
(* ===================================================================== *)

(** The value each getter returns, as a function of the state it reads. *)
Module Getters.
Section Getters.

Context `{JS.Host}.

(** [document.path == state.currentDocumentPath] *)
Definition isCurrent (state : AppState) (document : Document.t) : bool :=
  match currentDocumentPath state with
  | Some p => String.eqb (Document.path document) p
  | None => false
  end.

Definition currentDocument (state : AppState) : option Document.t :=
  List.find (isCurrent state) (documents state).

Definition compareNames (a b : Animation.t) : Z :=
  let nameA := JS.toLowerCase (Animation.name a) in
  let nameB := JS.toLowerCase (Animation.name b) in
  if JS.lessThan nameA nameB then -1
  else if JS.lessThan nameB nameA then 1
  else 0.

Definition sortedAnimations (state : AppState) : option (list Animation.t) :=
  match currentDocument state with
  | None => None
  | Some d =>
      let animations := JS.objectValues (Sheet.animations (Document.sheet d)) in
      Some (JS.sorted compareNames animations)
  end.

(** What the getter returns: an animation of the sheet, an inherited
    member (of [Object.prototype], say) when the name is that of one and
    not a key of the map, or nothing. *)
Definition currentAnimation (state : AppState) : JS.Property Animation.t :=
  match currentDocument state with
  | None => JS.Absent
  | Some d =>
      match JS.truthyString (Document.currentAnimationName d) with
      | Some n => JS.lookup (Sheet.animations (Document.sheet d)) n
      | None => JS.Absent
      end
  end.

(** [this.currentDocument?.currentSequenceDirection], when truthy. *)
Definition currentDirection (state : AppState) : option string :=
  match currentDocument state with
  | Some d => JS.truthyString (Document.currentSequenceDirection d)
  | None => None
  end.

(** [this.currentDocument?.currentKeyframeIndex], when [!= null]. *)
Definition currentIndex (state : AppState) : option Z :=
  match currentDocument state with
  | Some d => Document.currentKeyframeIndex d
  | None => None
  end.

(** Line 68 reads [sequences] of whatever [currentAnimation] returned;
    on an inherited member that is [undefined], and indexing it throws. *)
Definition currentSequence (state : AppState) : JS.Completion (JS.Property Sequence.t) :=
  match currentAnimation state with
  | JS.Absent => JS.Normal JS.Absent
  | JS.Own a =>
      match currentDirection state with
      | Some dir => JS.Normal (JS.lookup (Animation.sequences a) dir)
      | None => JS.Normal JS.Absent
      end
  | JS.Inherited _ =>
      match currentDirection state with
      | Some _ => JS.Throws
      | None => JS.Normal JS.Absent
      end
  end.

(** Line 79 reads [keyframes] of whatever [currentSequence] returned. *)
Definition currentKeyframe (state : AppState) : JS.Completion (option Keyframe.t) :=
  match currentSequence state with
  | JS.Throws => JS.Throws
  | JS.Normal JS.Absent => JS.Normal None
  | JS.Normal (JS.Own s) =>
      match currentIndex state with
      | Some i => JS.Normal (JS.arrayGet (Sequence.keyframes s) i)
      | None => JS.Normal None
      end
  | JS.Normal (JS.Inherited _) =>
      match currentIndex state with
      | Some _ => JS.Throws
      | None => JS.Normal None
      end
  end.

Definition selectedFrames (state : AppState) : option (list Frame.t) :=
  match currentDocument state with
  | None => None
  | Some d => Some (List.filter Frame.selected (Sheet.frames (Document.sheet d)))
  end.

Definition selectedAnimations (state : AppState) : option (list Animation.t) :=
  match sortedAnimations state with
  | None => None
  | Some l => Some (List.filter Animation.selected l)
  end.

Definition selectedHitboxes (state : AppState) : JS.Completion (option (list Hitbox.t)) :=
  match currentKeyframe state with
  | JS.Throws => JS.Throws
  | JS.Normal None => JS.Normal None
  | JS.Normal (Some k) => JS.Normal (Some (List.filter Hitbox.selected (Keyframe.hitboxes k)))
  end.

(** Line 109 hands [sequences] of whatever [currentAnimation] returned
    to [Object.values], which throws on [undefined]. *)
Definition selectedKeyframes (state : AppState) : JS.Completion (option (list Keyframe.t)) :=
  match currentAnimation state with
  | JS.Absent => JS.Normal None
  | JS.Own a =>
      JS.Normal
        (Some (List.flat_map
                 (fun sequence => List.filter Keyframe.selected (Sequence.keyframes sequence))
                 (JS.objectValues (Animation.sequences a))))
  | JS.Inherited _ => JS.Throws
  end.

Definition canCut (state : AppState) : JS.Completion bool :=
  JS.orElse
    (JS.orElse (JS.Normal (JS.hasLength (selectedAnimations state)))
               (JS.lengthy (selectedKeyframes state)))
    (JS.lengthy (selectedHitboxes state)).

Definition canCopy (state : AppState) : JS.Completion bool :=
  JS.orElse
    (JS.orElse
       (JS.orElse (JS.Normal (JS.hasLength (selectedFrames state)))
                  (JS.Normal (JS.hasLength (selectedAnimations state))))
       (JS.lengthy (selectedKeyframes state)))
    (JS.lengthy (selectedHitboxes state)).

End Getters.
End Getters.

(* ===================================================================== *)
(** ** Getter evaluation on the heap *)
(* ===================================================================== *)

(** The getters once more, as the computations the source performs on
    the store's object graph.  Every JavaScript array is a cell of the
    heap, those of the state tree included, and the objects of the tree
    refer to their arrays by location.  [Array.prototype.sort] rewrites
    the cell it is applied to; [Object.values], [filter] and [flatMap]
    create new cells.  The getters assign to no field of any object, so
    objects are values here. *)
Module Evaluation.

Definition Loc := nat.

(** The objects of the state tree, with a location where [api/dto]
    has an array. *)
Record KeyframeRef := {
  kframe : string;
  khitboxes : Loc;
  kselected : bool }.

Record SequenceRef := { skeyframes : Loc }.

Record AnimationRef := {
  aname : string;
  aselected : bool;
  asequences : JS.Dict SequenceRef }.

Record SheetRef := {
  sframes : Loc;
  sanimations : JS.Dict AnimationRef }.

Record DocumentRef := {
  dpath : string;
  dsheet : SheetRef;
  dcurrentAnimationName : option string;
  dcurrentSequenceDirection : option string;
  dcurrentKeyframeIndex : option Z;
  dtimelineIsPlaying : bool;
  dwasCloseRequested : bool;
  dframesBeingRelocated : bool;
  dexportSettingsBeingEdited : bool }.

(** The store's [$state] object. *)
Record StateRef := {
  rdocuments : Loc;
  rcurrentDocumentPath : option string;
  rrecentDocumentPaths : Loc;
  rclipboardManifest : option string;
  risReleaseBuild : bool;
  rerror : option UserFacingError }.

(** An array, by the type of its elements. *)
Inductive Cell :=
| Documents (l : list DocumentRef)
| Frames (l : list Frame.t)
| Animations (l : list AnimationRef)
| Sequences (l : list SequenceRef)
| Keyframes (l : list KeyframeRef)
| Hitboxes (l : list Hitbox.t)
| Strings (l : list string).

Definition Heap := gmap Loc Cell.

(** A computation on the heap: it ends normally or by throwing, and
    leaves a heap.  [None] is for a heap that is not the image of a
    JavaScript heap (a location without an array, or with an array of
    another element type). *)
Definition M (A : Type) : Type := Heap -> option (JS.Completion A * Heap).

#[export] Instance M_ret : MRet M := fun A x h => Some (JS.Normal x, h).

#[export] Instance M_bind : MBind M :=
  fun A B k c h =>
    match c h with
    | Some (JS.Normal x, h') => k x h'
    | Some (JS.Throws, h') => Some (JS.Throws, h')
    | None => None
    end.

Definition ret {A} (x : A) : M A := mret x.

(** Reading a property of [undefined]. *)
Definition throw {A} : M A := fun h => Some (JS.Throws, h).

(** The array at a location, read at its element type. *)
Definition read {A} (as_ : Cell -> option A) (l : Loc) : M A :=
  fun h =>
    match h !! l with
    | Some c => match as_ c with
                | Some x => Some (JS.Normal x, h)
                | None => None
                end
    | None => None
    end.

Definition asDocuments (c : Cell) := match c with Documents l => Some l | _ => None end.
Definition asFrames (c : Cell) := match c with Frames l => Some l | _ => None end.
Definition asAnimations (c : Cell) := match c with Animations l => Some l | _ => None end.
Definition asSequences (c : Cell) := match c with Sequences l => Some l | _ => None end.
Definition asKeyframes (c : Cell) := match c with Keyframes l => Some l | _ => None end.
Definition asHitboxes (c : Cell) := match c with Hitboxes l => Some l | _ => None end.
Definition asStrings (c : Cell) := match c with Strings l => Some l | _ => None end.

(** A new array. *)
Definition alloc (c : Cell) : M Loc :=
  fun h =>
    let l := fresh (dom h) in
    Some (JS.Normal l, <[l := c]> h).

(** An array rewritten in place. *)
Definition update (l : Loc) (f : Cell -> Cell) : M unit :=
  fun h =>
    match h !! l with
    | Some c => Some (JS.Normal tt, <[l := f c]> h)
    | None => None
    end.

(** [a.sort(cmp)] on an array of elements of one type ([as_] reads the
    cell at that type, [cell] writes it): reorders [a] itself, whichever
    array [a] is. *)
Definition sort {A} (as_ : Cell -> option (list A)) (cell : list A -> Cell)
           (a : Loc) (cmp : A -> A -> Z) : M unit :=
  items ← read as_ a;
  update a (fun _ => cell (JS.sorted cmp items)).

Section Getters.

Context `{JS.Host}.

Variable state : StateRef.

Definition isCurrent (document : DocumentRef) : bool :=
  match rcurrentDocumentPath state with
  | Some p => String.eqb (dpath document) p
  | None => false
  end.

Definition currentDocument : M (option DocumentRef) :=
  documents ← read asDocuments (rdocuments state);
  ret (List.find isCurrent documents).

Definition compareNames (a b : AnimationRef) : Z :=
  let nameA := JS.toLowerCase (aname a) in
  let nameB := JS.toLowerCase (aname b) in
  if JS.lessThan nameA nameB then -1
  else if JS.lessThan nameB nameA then 1
  else 0.

(** Returns the location of the array it built. *)
Definition sortedAnimations : M (option Loc) :=
  d ← currentDocument;
  match d with
  | None => ret None
  | Some d =>
      animations ← alloc (Animations (JS.objectValues (sanimations (dsheet d))));
      sort asAnimations Animations animations compareNames;;
      ret (Some animations)
  end.

Definition currentAnimation : M (JS.Property AnimationRef) :=
  d ← currentDocument;
  match d with
  | None => ret JS.Absent
  | Some d =>
      match JS.truthyString (dcurrentAnimationName d) with
      | Some n => ret (JS.lookup (sanimations (dsheet d)) n)
      | None => ret JS.Absent
      end
  end.

Definition currentDirection : M (option string) :=
  d ← currentDocument;
  match d with
  | Some d => ret (JS.truthyString (dcurrentSequenceDirection d))
  | None => ret None
  end.

Definition currentIndex : M (option Z) :=
  d ← currentDocument;
  match d with
  | Some d => ret (dcurrentKeyframeIndex d)
  | None => ret None
  end.

Definition currentSequence : M (JS.Property SequenceRef) :=
  a ← currentAnimation;
  match a with
  | JS.Absent => ret JS.Absent
  | JS.Own a =>
      dir ← currentDirection;
      match dir with
      | Some dir => ret (JS.lookup (asequences a) dir)
      | None => ret JS.Absent
      end
  | JS.Inherited _ =>
      dir ← currentDirection;
      match dir with
      | Some _ => throw
      | None => ret JS.Absent
      end
  end.

Definition currentKeyframe : M (option KeyframeRef) :=
  s ← currentSequence;
  match s with
  | JS.Absent => ret None
  | JS.Own s =>
      i ← currentIndex;
      match i with
      | Some i =>
          keyframes ← read asKeyframes (skeyframes s);
          ret (JS.arrayGet keyframes i)
      | None => ret None
      end
  | JS.Inherited _ =>
      i ← currentIndex;
      match i with
      | Some _ => throw
      | None => ret None
      end
  end.

Definition selectedFrames : M (option Loc) :=
  d ← currentDocument;
  match d with
  | None => ret None
  | Some d =>
      frames ← read asFrames (sframes (dsheet d));
      result ← alloc (Frames (List.filter Frame.selected frames));
      ret (Some result)
  end.

Definition selectedAnimations : M (option Loc) :=
  sorted ← sortedAnimations;
  match sorted with
  | None => ret None
  | Some sorted =>
      animations ← read asAnimations sorted;
      result ← alloc (Animations (List.filter aselected animations));
      ret (Some result)
  end.

Definition selectedHitboxes : M (option Loc) :=
  k ← currentKeyframe;
  match k with
  | None => ret None
  | Some k =>
      hitboxes ← read asHitboxes (khitboxes k);
      result ← alloc (Hitboxes (List.filter Hitbox.selected hitboxes));
      ret (Some result)
  end.

(** The callback of [flatMap], over the sequences still to visit: each
    [filter] creates an array, whose elements go to the result. *)
Fixpoint selectedOfEach (sequences : list SequenceRef) : M (list KeyframeRef) :=
  match sequences with
  | [] => ret []
  | sequence :: rest =>
      keyframes ← read asKeyframes (skeyframes sequence);
      chosen ← alloc (Keyframes (List.filter kselected keyframes));
      here ← read asKeyframes chosen;
      others ← selectedOfEach rest;
      ret (here ++ others)
  end.

Definition selectedKeyframes : M (option Loc) :=
  a ← currentAnimation;
  match a with
  | JS.Absent => ret None
  | JS.Own a =>
      values ← alloc (Sequences (JS.objectValues (asequences a)));
      sequences ← read asSequences values;
      flat ← selectedOfEach sequences;
      result ← alloc (Keyframes flat);
      ret (Some result)
  | JS.Inherited _ => throw
  end.

(** [!!x?.length] for a getter that returns an array or null. *)
Definition lengthy {A} (as_ : Cell -> option (list A)) (x : M (option Loc)) : M bool :=
  v ← x;
  match v with
  | None => ret false
  | Some l =>
      items ← read as_ l;
      ret (match items with [] => false | _ :: _ => true end)
  end.

(** [x || y] *)
Definition orElse (x y : M bool) : M bool :=
  b ← x; if (b : bool) then ret true else y.

Definition canCut : M bool :=
  orElse
    (orElse (lengthy asAnimations selectedAnimations)
            (lengthy asKeyframes selectedKeyframes))
    (lengthy asHitboxes selectedHitboxes).

Definition canCopy : M bool :=
  orElse
    (orElse
       (orElse (lengthy asFrames selectedFrames)
               (lengthy asAnimations selectedAnimations))
       (lengthy asKeyframes selectedKeyframes))
    (lengthy asHitboxes selectedHitboxes).

End Getters.

(** *** The state a heap holds *)

(** The tree of [api/dto] values that the heap holds below an object:
    every location replaced by the array found there. *)
Definition viewHitboxes (h : Heap) (l : Loc) : option (list Hitbox.t) :=
  c ← h !! l; asHitboxes c.

Definition viewKeyframe (h : Heap) (k : KeyframeRef) : option Keyframe.t :=
  hitboxes ← viewHitboxes h (khitboxes k);
  Some (Keyframe.mk (kframe k) hitboxes (kselected k)).

Definition viewKeyframes (h : Heap) (l : Loc) : option (list Keyframe.t) :=
  c ← h !! l; ks ← asKeyframes c; mapM (viewKeyframe h) ks.

Definition viewSequence (h : Heap) (s : SequenceRef) : option Sequence.t :=
  keyframes ← viewKeyframes h (skeyframes s);
  Some (Sequence.mk keyframes).

Definition viewEntry {A B} (view : A -> option B) (entry : string * A) : option (string * B) :=
  v ← view (snd entry); Some (fst entry, v).

Definition viewDict {A B} (view : A -> option B) (o : JS.Dict A) : option (JS.Dict B) :=
  mapM (viewEntry view) o.

Definition viewAnimation (h : Heap) (a : AnimationRef) : option Animation.t :=
  sequences ← viewDict (viewSequence h) (asequences a);
  Some (Animation.mk (aname a) (aselected a) sequences).

Definition viewFrames (h : Heap) (l : Loc) : option (list Frame.t) :=
  c ← h !! l; asFrames c.

Definition viewSheet (h : Heap) (s : SheetRef) : option Sheet.t :=
  frames ← viewFrames h (sframes s);
  animations ← viewDict (viewAnimation h) (sanimations s);
  Some (Sheet.mk frames animations).

Definition viewDocument (h : Heap) (d : DocumentRef) : option Document.t :=
  sheet ← viewSheet h (dsheet d);
  Some (Document.mk (dpath d) sheet
          (dcurrentAnimationName d) (dcurrentSequenceDirection d)
          (dcurrentKeyframeIndex d)
          (dtimelineIsPlaying d) (dwasCloseRequested d)
          (dframesBeingRelocated d) (dexportSettingsBeingEdited d)).

(** The [AppState] the store holds. *)
Definition snapshot (h : Heap) (state : StateRef) : option AppState :=
  c ← h !! rdocuments state;
  ds ← asDocuments c;
  documents ← mapM (viewDocument h) ds;
  r ← h !! rrecentDocumentPaths state;
  recent ← asStrings r;
  Some {| documents := documents;
          currentDocumentPath := rcurrentDocumentPath state;
          recentDocumentPaths := recent;
          clipboardManifest := rclipboardManifest state;
          isReleaseBuild := risReleaseBuild state;
          error := rerror state |}.

(** What a getter returned, read back from the heap. *)
Definition viewAnimations (h : Heap) (l : Loc) : option (list Animation.t) :=
  c ← h !! l; xs ← asAnimations c; mapM (viewAnimation h) xs.

Definition viewOption {A B} (view : A -> option B) (x : option A) : option (option B) :=
  match x with
  | Some v => Some <$> view v
  | None => Some None
  end.

Definition viewProperty {A B} (view : A -> option B) (x : JS.Property A)
  : option (JS.Property B) :=
  match x with
  | JS.Own v => JS.Own <$> view v
  | JS.Inherited k => Some (JS.Inherited k)
  | JS.Absent => Some JS.Absent
  end.

Definition viewCompletion {A B} (view : A -> option B) (x : JS.Completion A)
  : option (JS.Completion B) :=
  match x with
  | JS.Normal v => JS.Normal <$> view v
  | JS.Throws => Some JS.Throws
  end.

(** [getter], run on any heap that holds a state [s], ends the way
    [result s] says and with the value [result s] gives (read back from
    the heap it leaves); every array that existed before is as it was,
    so the heap still holds [s]. *)
Definition ReadOnly {R V} (getter : StateRef -> M R) (view : Heap -> R -> option V)
           (result : AppState -> JS.Completion V) : Prop :=
  forall (h : Heap) (state : StateRef) (s : AppState),
    snapshot h state = Some s ->
    exists (r : JS.Completion R) (h' : Heap),
      getter state h = Some (r, h')
      /\ h ⊆ h'
      /\ snapshot h' state = Some s
      /\ viewCompletion (view h') r = Some (result s).

End Evaluation.

(* ===================================================================== *)
(** ** The state tree as JSON and the patch engine *)
(* ===================================================================== *)

(** The tree that [$state] holds and that patches address by path. *)
Module Json.

Inductive t :=
| Null
| Bool (b : bool)
| Num (n : Z)
| Str (s : string)
| Arr (items : list t)
| Obj (members : JS.Dict t).

(** [state: () => ({ ... })], [stores/app.ts] lines 14-22. *)
Definition initialState : t :=
  Obj [ ("documents", Arr []);
        ("currentDocumentPath", Null);
        ("recentDocumentPaths", Arr []);
        ("clipboardManifest", Null);
        ("isReleaseBuild", Bool false);
        ("error", Null) ].

Definition digit (c : ascii) : option nat :=
  let n := N.to_nat (N_of_ascii c) in
  if ((48 <=? n) && (n <=? 57))%nat then Some (n - 48)%nat else None.

Fixpoint parseDigits (acc : nat) (s : string) : option nat :=
  match s with
  | EmptyString => Some acc
  | String c s' =>
      match digit c with
      | Some d => parseDigits (10 * acc + d)%nat s'
      | None => None
      end
  end.

(** An array index written in decimal. *)
Definition parseIndex (s : string) : option nat :=
  match s with
  | EmptyString => None
  | _ => parseDigits 0 s
  end.

Fixpoint hasProp {A} (o : JS.Dict A) (k : string) : bool :=
  match o with
  | [] => false
  | (k', _) :: o' => String.eqb k' k || hasProp o' k
  end.

(** [o[k] = v]: an existing member keeps its place, a new one goes last. *)
Fixpoint setProp {A} (o : JS.Dict A) (k : string) (v : A) : JS.Dict A :=
  match o with
  | [] => [(k, v)]
  | (k', v') :: o' =>
      if String.eqb k' k then (k', v) :: o' else (k', v') :: setProp o' k v
  end.

(** [delete o[k]] *)
Fixpoint deleteProp {A} (o : JS.Dict A) (k : string) : JS.Dict A :=
  match o with
  | [] => []
  | (k', v') :: o' =>
      if String.eqb k' k then o' else (k', v') :: deleteProp o' k
  end.

Fixpoint insertAt {A} (l : list A) (i : nat) (x : A) : option (list A) :=
  match i, l with
  | O, _ => Some (x :: l)
  | S i', y :: l' => option_map (cons y) (insertAt l' i' x)
  | S _, [] => None
  end.

Fixpoint removeAt {A} (l : list A) (i : nat) : option (list A) :=
  match i, l with
  | O, _ :: l' => Some l'
  | S i', y :: l' => option_map (cons y) (removeAt l' i')
  | _, [] => None
  end.

Fixpoint replaceAt {A} (l : list A) (i : nat) (x : A) : option (list A) :=
  match i, l with
  | O, _ :: l' => Some (x :: l')
  | S i', y :: l' => option_map (cons y) (replaceAt l' i' x)
  | _, [] => None
  end.

(** The member or element of [parent] named by one path segment. *)
Definition child (parent : t) (key : string) : option t :=
  match parent with
  | Obj o => JS.getProp o key
  | Arr l => match parseIndex key with
             | Some i => nth_error l i
             | None => None
             end
  | _ => None
  end.

(** A path is the list of its segments; [[]] is the root. *)
Definition Pointer := list string.

Fixpoint get (doc : t) (path : Pointer) : option t :=
  match path with
  | [] => Some doc
  | key :: rest =>
      match child doc key with
      | Some c => get c rest
      | None => None
      end
  end.


(** The own enumerable properties of a value, as [Object.assign] reads
    them: the members of an object, the elements of an array under their
    indices, the characters of a string (of ASCII characters) under
    theirs, and none for the other values. *)
Fixpoint indexed {A} (i : nat) (l : list A) : JS.Dict A :=
  match l with
  | [] => []
  | x :: l' => (pretty i, x) :: indexed (S i) l'
  end.

Definition ownEntries (v : t) : JS.Dict t :=
  match v with
  | Obj members => members
  | Arr items => indexed 0 items
  | Str s => indexed 0 (List.map (fun c => Str (String c EmptyString)) (list_ascii_of_string s))
  | _ => []
  end.

(** [Object.assign(target, source)] on an object: every own property
    of [source] is written to [target]; the other members of [target]
    stay.  The store's state is an object; a target of another kind has
    no members to write here and is returned as it is. *)
Definition assign (target source : t) : t :=
  match target with
  | Obj members =>
      Obj (List.fold_left (fun acc entry => setProp acc (fst entry) (snd entry))
             (ownEntries source) members)
  | _ => target
  end.

End Json.


(** Modelled from the spec: the patch engine is the imported
    [applyPatch], which is not among the sources.  What follows is
    section 4.1 and section 6 of the specification: a patch is an ordered
    sequence of operations of kind add, remove, replace, move, copy or
    test with the meaning JSON-Patch gives them, applied strictly in
    order and in place; the assertion of [test] is not enforced; an
    operation whose target does not resolve (its parent is absent, or the
    member to remove or replace is) fails, and the failure propagates.
    The engine serves to run the gateway on concrete trees; the gateway
    itself takes the store's [patch] action as a parameter. *)
Module JsonPatch.

Import Json.

Inductive Operation :=
| Add (path : Pointer) (value : Json.t)
| Remove (path : Pointer)
| Replace (path : Pointer) (value : Json.t)
| Move (from path : Pointer)
| Copy (from path : Pointer)
| Test (path : Pointer) (value : Json.t).

Definition Patch := list Operation.

Definition addMember (v : Json.t) (parent : Json.t) (key : string) : option Json.t :=
  match parent with
  | Obj o => Some (Obj (setProp o key v))
  | Arr l =>
      if String.eqb key "-" then Some (Arr (l ++ [v]))
      else match parseIndex key with
           | Some i => option_map Arr (insertAt l i v)
           | None => None
           end
  | _ => None
  end.

Definition removeMember (parent : Json.t) (key : string) : option Json.t :=
  match parent with
  | Obj o => if hasProp o key then Some (Obj (deleteProp o key)) else None
  | Arr l =>
      match parseIndex key with
      | Some i => option_map Arr (removeAt l i)
      | None => None
      end
  | _ => None
  end.

Definition replaceMember (v : Json.t) (parent : Json.t) (key : string) : option Json.t :=
  match parent with
  | Obj o => if hasProp o key then Some (Obj (setProp o key v)) else None
  | Arr l =>
      match parseIndex key with
      | Some i => option_map Arr (replaceAt l i v)
      | None => None
      end
  | _ => None
  end.

(** [test] reaches the parent of its target like every operation and
    then compares nothing. *)
Definition testMember (parent : Json.t) (key : string) : option Json.t :=
  match parent with
  | Obj _ | Arr _ => Some parent
  | _ => None
  end.

(** Walk to the parent of the last segment, edit it with [edit], and
    put the edited containers back on the way up.  [None] when a
    segment on the way does not exist. *)
Fixpoint atParent (edit : Json.t -> string -> option Json.t)
         (path : Pointer) (doc : Json.t) : option Json.t :=
  match path with
  | [] => None
  | [key] => edit doc key
  | key :: rest =>
      match child doc key with
      | Some c =>
          match atParent edit rest c with
          | Some c' => replaceMember c' doc key
          | None => None
          end
      | None => None
      end
  end.

Definition add (doc : Json.t) (path : Pointer) (v : Json.t) : option Json.t :=
  match path with
  | [] => Some v
  | _ => atParent (addMember v) path doc
  end.

Definition remove (doc : Json.t) (path : Pointer) : option Json.t :=
  atParent removeMember path doc.

Definition replace (doc : Json.t) (path : Pointer) (v : Json.t) : option Json.t :=
  match path with
  | [] => Some v
  | _ => atParent (replaceMember v) path doc
  end.

Definition test (doc : Json.t) (path : Pointer) : option Json.t :=
  match path with
  | [] => Some doc
  | _ => atParent testMember path doc
  end.

(** One operation; [None] is the structural error. *)
Definition applyOperation (doc : Json.t) (o : Operation) : option Json.t :=
  match o with
  | Add path v => add doc path v
  | Remove path => remove doc path
  | Replace path v => replace doc path v
  | Move from path =>
      match get doc from with
      | Some v =>
          match remove doc from with
          | Some doc' => add doc' path v
          | None => None
          end
      | None => None
      end
  | Copy from path =>
      match get doc from with
      | Some v => add doc path v
      | None => None
      end
  | Test path _ => test doc path
  end.

(** The tree after the patch, and the operation that failed if one
    did: the operations before it have taken effect, those after it
    have not run. *)
Fixpoint applyPatch (doc : Json.t) (patch : Patch) : Json.t * option Operation :=
  match patch with
  | [] => (doc, None)
  | o :: rest =>
      match applyOperation doc o with
      | Some doc' => applyPatch doc' rest
      | None => (doc, Some o)
      end
  end.

End JsonPatch.

(* ===================================================================== *)
(** ** The command wrappers ([api/document.ts]) *)
(* ===================================================================== *)

Module Api.

(** One constructor per exported function, with its arguments. *)
Inductive Command :=
| undo
| redo
| focusContentTab (contentTab : string)
| clearSelection
| selectFrame (path : string) (shift ctrl : bool)
| selectAnimation (name : string) (shift ctrl : bool)
| pan (delta : Z * Z)
| centerWorkbench
| zoomInWorkbench
| zoomOutWorkbench
| resetWorkbenchZoom
| editAnimation (name : string)
| renameAnimation (oldName newName : string)
| deleteAnimation (name : string)
| tick (deltaTimeMillis : Z)
| play
| pause
| scrubTimeline (timeMillis : Z)
| zoomInTimeline
| zoomOutTimeline
| resetTimelineZoom
| getState
| newDocument (path : string)
| openDocuments (paths : list string)
| focusDocument (path : string)
| closeDocument (path : string)
| closeCurrentDocument
| closeAllDocuments
| requestExit
| cancelExit.

(** The first argument each function passes to [invoke]. *)
Definition commandName (c : Command) : string :=
  match c with
  | undo => "undo"
  | redo => "redo"
  | focusContentTab _ => "focus_content_tab"
  | clearSelection => "clear_selection"
  | selectFrame _ _ _ => "select_frame"
  | selectAnimation _ _ _ => "select_animation"
  | pan _ => "pan"
  | centerWorkbench => "center_workbench"
  | zoomInWorkbench => "zoom_in_workbench"
  | zoomOutWorkbench => "zoom_out_workbench"
  | resetWorkbenchZoom => "reset_workbench_zoom"
  | editAnimation _ => "edit_animation"
  | renameAnimation _ _ => "rename_animation"
  | deleteAnimation _ => "delete_animation"
  | tick _ => "tick"
  | play => "play"
  | pause => "pause"
  | scrubTimeline _ => "scrub_timeline"
  | zoomInTimeline => "zoom_in_timeline"
  | zoomOutTimeline => "zoom_out_timeline"
  | resetTimelineZoom => "reset_timeline_zoom"
  | getState => "get_state"
  | newDocument _ => "new_document"
  | openDocuments _ => "open_documents"
  | focusDocument _ => "focus_document"
  | closeDocument _ => "close_document"
  | closeCurrentDocument => "close_current_document"
  | closeAllDocuments => "close_all_documents"
  | requestExit => "request_exit"
  | cancelExit => "cancel_exit"
  end.

(** [getState] assigns the response to [$state]; every other function
    hands it to the store's [patch] action. *)
Definition assignsState (c : Command) : bool :=
  match c with
  | getState => true
  | _ => false
  end.

End Api.

(** The store as the wrappers use it: the [patch] action (the state
    after the call, and whether the call threw) and the assignment
    [appStore.$state = value], which the store carries out as
    [Object.assign] onto its state. *)
Class PatchAction (State Patch : Type) := {
  Failure : Type;
  patch : State -> Patch -> State * option Failure;
  assign : State -> State -> State }.

(** [patch(patch) { applyPatch(this.$state, patch, false) }] and
    [$state = value] on the JSON tree. *)
#[export] Instance jsonStore : PatchAction Json.t JsonPatch.Patch := {|
  Failure := JsonPatch.Operation;
  patch := JsonPatch.applyPatch;
  assign := Json.assign |}.

(** The event loop around the wrappers.  Every wrapper has the shape

      [const appStore = useAppStore(); appStore.patch(await invoke(name, args));]

    so a call runs up to its [await] (the round-trip is started and the
    call is suspended), and the rest of the body runs when the promise
    of that round-trip settles: on fulfilment the response goes to the
    store, on rejection the [await] throws and the body is abandoned. *)
Module Gateway.
Section Gateway.

Context {State Patch : Type} `{PatchAction State Patch}.

(** What the backend answers. *)
Inductive Response :=
| PatchResponse (p : Patch)
| Snapshot (s : State).

(** What happens on the loop. *)
Inductive Event :=
| Call (c : Api.Command)               (* a caller calls a wrapper *)
| Fulfil (id : nat) (r : Response)     (* round-trip [id] resolves *)
| Reject (id : nat).                   (* round-trip [id] rejects *)

(** What the wrappers do, in the order they do it. *)
Inductive Effect :=
| Invoked (id : nat) (c : Api.Command)   (* [invoke] called *)
| Patched (id : nat) (p : Patch)         (* [appStore.patch] called *)
| Assigned (id : nat) (s : State)        (* [appStore.$state] assigned *)
| Thrown (id : nat).                     (* the wrapper's promise rejected *)

Record t := mk {
  store : State;                      (* the store's state *)
  pending : gmap nat Api.Command;     (* suspended calls by round-trip *)
  nextId : nat }.

(** The response is of the kind the command's wrapper expects: a full
    snapshot for [getState], a patch for every other command. *)
Definition answers (c : Api.Command) (r : Response) : bool :=
  match r with
  | Snapshot _ => Api.assignsState c
  | PatchResponse _ => negb (Api.assignsState c)
  end.

(** One event; [None] when the event cannot occur (no suspended call
    for that round-trip, or a response of the wrong kind for the
    command). *)
Definition step (g : t) (e : Event) : option (t * list Effect) :=
  match e with
  | Call c =>
      let id := nextId g in
      Some (mk (store g) (<[id := c]> (pending g)) (S id), [Invoked id c])
  | Fulfil id r =>
      match pending g !! id with
      | None => None
      | Some c =>
          match r with
          | Snapshot s =>
              if Api.assignsState c
              then Some (mk (assign (store g) s) (delete id (pending g)) (nextId g),
                         [Assigned id s])
              else None
          | PatchResponse p =>
              if Api.assignsState c then None
              else
                let (s', failure) := patch (store g) p in
                Some (mk s' (delete id (pending g)) (nextId g),
                      match failure with
                      | None => [Patched id p]
                      | Some _ => [Patched id p; Thrown id]
                      end)
          end
      end
  | Reject id =>
      match pending g !! id with
      | None => None
      | Some _ => Some (mk (store g) (delete id (pending g)) (nextId g), [Thrown id])
      end
  end.

(** A sequence of events, with the effects in order. *)
Fixpoint run (g : t) (es : list Event) : option (t * list Effect) :=
  match es with
  | [] => Some (g, [])
  | e :: es' =>
      match step g e with
      | None => None
      | Some (g', out) =>
          match run g' es' with
          | None => None
          | Some (g'', out') => Some (g'', out ++ out')
          end
      end
  end.

(** The round-trips whose response reached the store, in the order in
    which it did. *)
Fixpoint applications (tr : list Effect) : list nat :=
  match tr with
  | [] => []
  | Patched id _ :: tr' => id :: applications tr'
  | Assigned id _ :: tr' => id :: applications tr'
  | _ :: tr' => applications tr'
  end.

(** The round-trips that resolve in a sequence of events, in order. *)
Fixpoint resolutions (es : list Event) : list nat :=
  match es with
  | [] => []
  | Fulfil id _ :: es' => id :: resolutions es'
  | _ :: es' => resolutions es'
  end.

(** In [ids], [a] occurs and no [b] occurs before it. *)
Fixpoint before (a b : nat) (ids : list nat) : bool :=
  match ids with
  | [] => false
  | i :: ids' =>
      if Nat.eqb i a then true
      else if Nat.eqb i b then false
      else before a b ids'
  end.

(** How often the response of round-trip [id] reached the store. *)
Definition timesApplied (id : nat) (tr : list Effect) : nat :=
  List.length (List.filter (Nat.eqb id) (applications tr)).

End Gateway.
End Gateway.


(* ===================================================================== *)
(** ** Keyboard shortcuts ([onKeyDown]) *)
(* ===================================================================== *)

(** The handler reads the store through [useStateStore] and calls the
    functions of [@/backend/api]; neither module is among the sources.
    The state it reads ([error], [currentDocumentPath] and the
    [currentDocument] getter) is the one described above, and a call is
    recorded as the function called with its arguments. *)
Module Keyboard.

Record KeyboardEvent := {
  key : string;
  ctrlKey : bool;
  altKey : bool;
  shiftKey : bool }.

(** What the handler reads of [document.activeElement]. *)
Record Element := {
  tagName : string;
  tabIndex : Z }.

Inductive NudgeDirection := NudgeUp | NudgeDown | NudgeLeft | NudgeRight.
Inductive BrowseDirection := BrowseUp | BrowseDown | BrowseLeft | BrowseRight.

(** The functions of [@/backend/api] that the handler calls, with the
    arguments it passes.  Each call starts one backend command. *)
Inductive Action :=
| newDocument
| openDocuments
| saveAll
| save
| saveAs (path : option string)
| doExport
| beginExportAs
| closeCurrentDocument
| closeAllDocuments
| undo
| redo
| cut
| copy
| paste
| centerWorkbench
| zoomInTimeline
| zoomInWorkbench
| zoomOutTimeline
| zoomOutWorkbench
| resetTimelineZoom
| resetWorkbenchZoom
| selectAll
| nudgeSelection (direction : NudgeDirection) (large : bool)
| pause
| play
| deleteSelection
| browseSelection (direction : BrowseDirection) (shift : bool)
| browseToStart (shift : bool)
| browseToEnd (shift : bool)
| beginRenameSelection
| acknowledgeError
| cancelExit
| cancelRelocateFrames
| cancelExportAs.

(** What one run of the handler did. *)
Record Handled := {
  calls : list Action;          (* backend functions called, in order *)
  defaultPrevented : bool }.    (* [event.preventDefault()] called *)

Definition nothing : Handled := {| calls := []; defaultPrevented := false |}.
Definition call (a : Action) : Handled := {| calls := [a]; defaultPrevented := false |}.
Definition prevent : Handled := {| calls := []; defaultPrevented := true |}.
Definition preventAndCall (a : Action) : Handled :=
  {| calls := [a]; defaultPrevented := true |}.

(** [state.currentDocument?.flag] as a condition. *)
Definition ofCurrentDocument (flag : Document.t -> bool) (state : AppState) : bool :=
  match Getters.currentDocument state with
  | Some d => flag d
  | None => false
  end.

(** [state.error] as a condition. *)
Definition hasError (state : AppState) : bool :=
  match error state with
  | Some _ => true
  | None => false
  end.

(** The branch taken when the control key is held (lines 51-115). *)
Definition withControl (state : AppState) (event : KeyboardEvent) : Handled :=
  let k := key event in
  if String.eqb k "n" then call newDocument
  else if String.eqb k "o" then call openDocuments
  else if String.eqb k "s" then
    if altKey event then call saveAll else call save
  else if String.eqb k "S" then preventAndCall (saveAs (currentDocumentPath state))
  else if String.eqb k "e" then call doExport
  else if String.eqb k "E" then preventAndCall beginExportAs
  else if String.eqb k "w" then call closeCurrentDocument
  else if String.eqb k "W" then call closeAllDocuments
  else if String.eqb k "z" then preventAndCall undo
  else if String.eqb k "Z" then preventAndCall redo
  else if String.eqb k "x" then call cut
  else if String.eqb k "c" then call copy
  else if String.eqb k "v" then call paste
  else if String.eqb k " " then call centerWorkbench
  else if String.eqb k "+" || String.eqb k "=" then
    if altKey event then call zoomInTimeline else call zoomInWorkbench
  else if String.eqb k "-" then
    if altKey event then call zoomOutTimeline else call zoomOutWorkbench
  else if String.eqb k "0" then
    if altKey event then call resetTimelineZoom else call resetWorkbenchZoom
  else if String.eqb k "a" then call selectAll
  else if String.eqb k "ArrowUp" then call (nudgeSelection NudgeUp (shiftKey event))
  else if String.eqb k "ArrowDown" then call (nudgeSelection NudgeDown (shiftKey event))
  else if String.eqb k "ArrowLeft" then call (nudgeSelection NudgeLeft (shiftKey event))
  else if String.eqb k "ArrowRight" then call (nudgeSelection NudgeRight (shiftKey event))
  else nothing.

(** The [Escape] branch (lines 151-159). *)
Definition onEscape (state : AppState) : Handled :=
  if hasError state then call acknowledgeError
  else if ofCurrentDocument Document.wasCloseRequested state then call cancelExit
  else if ofCurrentDocument Document.framesBeingRelocated state then
    call cancelRelocateFrames
  else if ofCurrentDocument Document.exportSettingsBeingEdited state then
    call cancelExportAs
  else nothing.

(** The branch taken when the control key is not held (lines 117-160). *)
Definition withoutControl (state : AppState) (isActiveElementKeyboardFriendly : bool)
           (event : KeyboardEvent) : Handled :=
  let k := key event in
  if String.eqb k " " then
    if negb isActiveElementKeyboardFriendly then
      if ofCurrentDocument Document.timelineIsPlaying state
      then preventAndCall pause
      else preventAndCall play
    else nothing
  else if String.eqb k "Delete" then call deleteSelection
  else if String.eqb k "ArrowUp" then
    preventAndCall (browseSelection BrowseUp (shiftKey event))
  else if String.eqb k "ArrowDown" then
    preventAndCall (browseSelection BrowseDown (shiftKey event))
  else if String.eqb k "ArrowLeft" then
    preventAndCall (browseSelection BrowseLeft (shiftKey event))
  else if String.eqb k "ArrowRight" then
    preventAndCall (browseSelection BrowseRight (shiftKey event))
  else if String.eqb k "Home" then call (browseToStart (shiftKey event))
  else if String.eqb k "End" then call (browseToEnd (shiftKey event))
  else if String.eqb k "F2" then call beginRenameSelection
  else if String.eqb k "Enter" then
    if negb isActiveElementKeyboardFriendly then prevent else nothing
  else if String.eqb k "Escape" then onEscape state
  else nothing.

(** [onKeyDown(event)], given the store's state and
    [document.activeElement].  [None]: the handler threw (line 42 reads
    [tabIndex] of the active element without checking that there is
    one). *)
Definition onKeyDown (state : AppState) (activeElement : option Element)
           (event : KeyboardEvent) : option Handled :=
  match activeElement with
  | None => None
  | Some el =>
      let isActiveElementKeyboardFriendly := negb (tabIndex el =? -1) in
      if String.eqb (tagName el) "INPUT" then Some nothing
      else if ctrlKey event then Some (withControl state event)
      else Some (withoutControl state isActiveElementKeyboardFriendly event)
  end.

(** An event with no modifier key held. *)
Definition press (k : string) : KeyboardEvent :=
  {| key := k; ctrlKey := false; altKey := false; shiftKey := false |}.

Definition unmodified (event : KeyboardEvent) : Prop :=
  ctrlKey event = false /\ altKey event = false /\ shiftKey event = false.


(** The element with keyboard focus is an [<input>]. *)
Definition focusOnInput (activeElement : option Element) : Prop :=
  exists el, activeElement = Some el /\ tagName el = "INPUT".

End Keyboard.


(* ===================================================================== *)
(** ** The specification's wording of the derived views and of Escape *)
(* ===================================================================== *)

(** These definitions follow the sentences of the specification; the
    theorems below compare them with the getters and the handler. *)
Module Spec.

(** A selection set that has at least one member. *)
Definition nonEmpty {A} (selection : option (list A)) : Prop :=
  exists x rest, selection = Some (x :: rest).

(** Every keyframe of the animation: the sequences in the iteration
    order of the direction map, the keyframes of each by index. *)
Definition keyframesOfAllDirections (a : Animation.t) : list Keyframe.t :=
  List.concat
    (List.map (fun entry : string * Sequence.t => Sequence.keyframes (snd entry))
       (Animation.sequences a)).

(** Section 4.2, [selectedKeyframes]: with a current animation, its
    selected keyframes over all directions; none when there is no current
    animation. *)
Definition selectedKeyframes `{JS.Host} (state : AppState)
  : JS.Completion (option (list Keyframe.t)) :=
  match Getters.currentAnimation state with
  | JS.Own a => JS.Normal (Some (List.filter Keyframe.selected (keyframesOfAllDirections a)))
  | _ => JS.Normal None
  end.

(** A selection getter that returns at least one member. *)
Definition yieldsNonEmpty {A} (selection : JS.Completion (option (list A))) : Prop :=
  exists x rest, selection = JS.Normal (Some (x :: rest)).

(** A selection getter that returns, and returns no member: an empty
    list or null. *)
Definition yieldsEmpty {A} (selection : JS.Completion (option (list A))) : Prop :=
  selection = JS.Normal None \/ selection = JS.Normal (Some []).



(** Section 4.4, rule 3: the conditions Escape looks at, highest
    priority first, each with the command it stands for. *)
Definition escapePriority : list ((AppState -> bool) * Keyboard.Action) :=
  [ (Keyboard.hasError, Keyboard.acknowledgeError);
    (Keyboard.ofCurrentDocument Document.wasCloseRequested, Keyboard.cancelExit);
    (Keyboard.ofCurrentDocument Document.framesBeingRelocated,
      Keyboard.cancelRelocateFrames);
    (Keyboard.ofCurrentDocument Document.exportSettingsBeingEdited,
      Keyboard.cancelExportAs) ].

(** The command of the first condition that holds, if one does. *)
Definition escapeDispatch (state : AppState) : list Keyboard.Action :=
  match List.find (fun rule => fst rule state) escapePriority with
  | Some rule => [snd rule]
  | None => []
  end.

(** Section 8: an unmodified Escape dispatches exactly the command of
    the first matching condition. *)
Definition escapeResolves (state : AppState) (activeElement : option Keyboard.Element)
           (event : Keyboard.KeyboardEvent) : Prop :=
  Keyboard.unmodified event ->
  Keyboard.key event = "Escape" ->
  option_map Keyboard.calls (Keyboard.onKeyDown state activeElement event)
  = Some (escapeDispatch state).

(** Section 4.3, item 3: of two commands issued back to back, the first
    reaches the store first, whichever response arrives first. *)
Definition issuanceOrder `{PatchAction State Patch}
           (g : Gateway.t) (a b : Api.Command) (ra rb : Gateway.Response) : Prop :=
  let ida := Gateway.nextId g in
  let idb := S ida in
  forall arrival g' tr,
    (arrival = [Gateway.Fulfil ida ra; Gateway.Fulfil idb rb]
     \/ arrival = [Gateway.Fulfil idb rb; Gateway.Fulfil ida ra]) ->
    Gateway.run g ([Gateway.Call a; Gateway.Call b] ++ arrival) = Some (g', tr) ->
    Gateway.before ida idb (Gateway.applications tr) = true.

(** The error slot of the state tree holds an error. *)
Definition errorIsSet (state : Json.t) : bool :=
  match Json.child state "error" with
  | None | Some Json.Null => false
  | Some _ => true
  end.

(** Section 7, transport failure: nothing is applied, and the error
    slot is set. *)
Definition rejectionSurfaces (g : @Gateway.t Json.t) (c : Api.Command) : Prop :=
  forall g' tr,
    Gateway.run g [Gateway.Call c; Gateway.Reject (Gateway.nextId g)] = Some (g', tr) ->
    Gateway.applications tr = []
    /\ errorIsSet (Gateway.store g') = true.

End Spec.

(* ===================================================================== *)
(** ** Sample states *)
(* ===================================================================== *)

Module Sample.

Definition key (f : string) (sel : bool) : Keyframe.t :=
  Keyframe.mk f [Hitbox.mk false] sel.

(** An animation with two directions; the second keyframe of the first
    and the first of the second are selected. *)
Definition walk : Animation.t :=
  Animation.mk "Walk" false
    [ ("North", Sequence.mk [key "n0.png" false; key "n1.png" true]);
      ("South", Sequence.mk [key "s0.png" true; key "s1.png" false]) ].

Definition attack : Animation.t := Animation.mk "attack" false [].
Definition jump : Animation.t := Animation.mk "Jump" false [].

Definition hero (frames : list Frame.t) (closing : bool) : Document.t :=
  Document.mk "hero.tiger"
    (Sheet.mk frames [("Walk", walk); ("attack", attack); ("Jump", jump)])
    (Some "Walk") (Some "North") (Some 0)
    false closing false false.

(** One open document, which is the current one. *)
Definition editing : AppState :=
  {| documents := [hero [Frame.mk "n0.png" false] false];
     currentDocumentPath := Some "hero.tiger";
     recentDocumentPaths := [];
     clipboardManifest := None;
     isReleaseBuild := false;
     error := None |}.

(** A document in which only a frame is selected. *)
Definition framesOnly : AppState :=
  {| documents :=
       [Document.mk "icons.tiger"
          (Sheet.mk [Frame.mk "a.png" true; Frame.mk "b.png" false]
             [("Idle", Animation.mk "Idle" false
                        [("North", Sequence.mk [key "a.png" false])])])
          (Some "Idle") (Some "North") (Some 0)
          false false false false];
     currentDocumentPath := Some "icons.tiger";
     recentDocumentPaths := [];
     clipboardManifest := None;
     isReleaseBuild := false;
     error := None |}.

(** An error is showing while the current document waits for the
    answer to a close request. *)
Definition failedWhileClosing : AppState :=
  {| documents := [hero [] true];
     currentDocumentPath := Some "hero.tiger";
     recentDocumentPaths := [];
     clipboardManifest := None;
     isReleaseBuild := false;
     error := Some {| message := "could not save" |} |}.

Definition textField : Keyboard.Element :=
  {| Keyboard.tagName := "INPUT"; Keyboard.tabIndex := 0 |}.

Definition canvas : Keyboard.Element :=
  {| Keyboard.tagName := "DIV"; Keyboard.tabIndex := -1 |}.

(** A gateway with nothing in flight over the store's initial state. *)
Definition idle : @Gateway.t Json.t :=
  Gateway.mk Json.initialState ∅ 0.

Definition focus (path : string) : JsonPatch.Patch :=
  [JsonPatch.Replace ["currentDocumentPath"] (Json.Str path)].

(** The backend's answer carrying that patch. *)
Definition focused (path : string) : @Gateway.Response Json.t JsonPatch.Patch :=
  Gateway.PatchResponse (focus path).

(** A document whose current animation name is no key of its sheet but
    the name of a member every object inherits; one frame is selected. *)
Definition dangling : AppState :=
  {| documents :=
       [Document.mk "hero.tiger"
          (Sheet.mk [Frame.mk "n0.png" true] [("Walk", walk)])
          (Some "constructor") (Some "North") (Some 0)
          false false false false];
     currentDocumentPath := Some "hero.tiger";
     recentDocumentPaths := [];
     clipboardManifest := None;
     isReleaseBuild := false;
     error := None |}.

(** A document with two of its three animations selected. *)
Definition picked : AppState :=
  {| documents :=
       [Document.mk "hero.tiger"
          (Sheet.mk []
             [("Walk", Animation.mk "Walk" true []);
              ("attack", Animation.mk "attack" true []);
              ("Jump", Animation.mk "Jump" false [])])
          None None None
          false false false false];
     currentDocumentPath := Some "hero.tiger";
     recentDocumentPaths := [];
     clipboardManifest := None;
     isReleaseBuild := false;
     error := None |}.


(** The state [editing] laid out on the heap: the document list at 0,
    the recent paths at 1, the frames at 2, the keyframes of "North" and
    "South" at 3 and 4, and the hitboxes of the four keyframes at 5-8. *)
Definition keyRef (f : string) (hitboxes : Evaluation.Loc) (sel : bool)
  : Evaluation.KeyframeRef :=
  {| Evaluation.kframe := f; Evaluation.khitboxes := hitboxes;
     Evaluation.kselected := sel |}.

Definition animationRef (n : string) (sequences : JS.Dict Evaluation.SequenceRef)
  : Evaluation.AnimationRef :=
  {| Evaluation.aname := n; Evaluation.aselected := false;
     Evaluation.asequences := sequences |}.

Definition heroRef : Evaluation.DocumentRef :=
  {| Evaluation.dpath := "hero.tiger";
     Evaluation.dsheet :=
       {| Evaluation.sframes := 2%nat;
          Evaluation.sanimations :=
            [ ("Walk", animationRef "Walk"
                         [ ("North", {| Evaluation.skeyframes := 3%nat |});
                           ("South", {| Evaluation.skeyframes := 4%nat |}) ]);
              ("attack", animationRef "attack" []);
              ("Jump", animationRef "Jump" []) ] |};
     Evaluation.dcurrentAnimationName := Some "Walk";
     Evaluation.dcurrentSequenceDirection := Some "North";
     Evaluation.dcurrentKeyframeIndex := Some 0;
     Evaluation.dtimelineIsPlaying := false;
     Evaluation.dwasCloseRequested := false;
     Evaluation.dframesBeingRelocated := false;
     Evaluation.dexportSettingsBeingEdited := false |}.

Definition root : Evaluation.StateRef :=
  {| Evaluation.rdocuments := 0%nat;
     Evaluation.rcurrentDocumentPath := Some "hero.tiger";
     Evaluation.rrecentDocumentPaths := 1%nat;
     Evaluation.rclipboardManifest := None;
     Evaluation.risReleaseBuild := false;
     Evaluation.rerror := None |}.

Definition heap : Evaluation.Heap :=
  list_to_map
    [ (0%nat, Evaluation.Documents [heroRef]);
      (1%nat, Evaluation.Strings []);
      (2%nat, Evaluation.Frames [Frame.mk "n0.png" false]);
      (3%nat, Evaluation.Keyframes [keyRef "n0.png" 5%nat false; keyRef "n1.png" 6%nat true]);
      (4%nat, Evaluation.Keyframes [keyRef "s0.png" 7%nat true; keyRef "s1.png" 8%nat false]);
      (5%nat, Evaluation.Hitboxes [Hitbox.mk false]);
      (6%nat, Evaluation.Hitboxes [Hitbox.mk false]);
      (7%nat, Evaluation.Hitboxes [Hitbox.mk false]);
      (8%nat, Evaluation.Hitboxes [Hitbox.mk false]) ].

End Sample.


(* ===================================================================== *)
(** ** Vocabulary for the further properties *)
(* ===================================================================== *)

Module View.

(** The name [sortedAnimations] compares. *)
Definition sortKey `{JS.Host} (a : Animation.t) : string :=
  JS.toLowerCase (Animation.name a).

(** [a] may stand before [b]: the key of [b] is not below the key of [a]. *)
Definition byLowerName `{JS.Host} (a b : Animation.t) : Prop :=
  JS.lessThan (sortKey b) (sortKey a) = false.

(** The store's state before the first response (lines 14-22). *)
Definition initial : AppState :=
  {| documents := [];
     currentDocumentPath := None;
     recentDocumentPaths := [];
     clipboardManifest := None;
     isReleaseBuild := false;
     error := None |}.

(** A document whose sheet has an animation keyed by the empty string,
    and whose current animation name is the empty string. *)
Definition unnamed : AppState :=
  {| documents :=
       [Document.mk "blank.tiger"
          (Sheet.mk []
             [("", Animation.mk "" true
                     [("North", Sequence.mk [Sample.key "x.png" true])])])
          (Some "") (Some "North") (Some 0)
          false false false false];
     currentDocumentPath := Some "blank.tiger";
     recentDocumentPaths := [];
     clipboardManifest := None;
     isReleaseBuild := false;
     error := None |}.

(** The sample document with a keyframe index past the end of the
    current sequence. *)
Definition overrun : AppState :=
  {| documents :=
       [Document.mk "hero.tiger"
          (Sheet.mk [] [("Walk", Sample.walk)])
          (Some "Walk") (Some "North") (Some 2)
          false false false false];
     currentDocumentPath := Some "hero.tiger";
     recentDocumentPaths := [];
     clipboardManifest := None;
     isReleaseBuild := false;
     error := None |}.

(** Two open documents with the same path. *)
Definition twins : AppState :=
  {| documents := [Sample.hero [] false; Sample.hero [Frame.mk "late.png" true] true];
     currentDocumentPath := Some "hero.tiger";
     recentDocumentPaths := [];
     clipboardManifest := None;
     isReleaseBuild := false;
     error := None |}.

End View.

(** Summaries of the keyboard handler's bindings. *)
Module Keys.

(** [k] is one of the listed keys. *)
Definition oneOf (keys : list string) (k : string) : bool :=
  List.existsb (String.eqb k) keys.

Definition arrows : list string := ["ArrowUp"; "ArrowDown"; "ArrowLeft"; "ArrowRight"].

(** The events whose default action the handler suppresses. *)
Definition suppressed (el : Keyboard.Element) (event : Keyboard.KeyboardEvent) : bool :=
  negb (String.eqb (Keyboard.tagName el) "INPUT")
  && (if Keyboard.ctrlKey event
      then oneOf ["S"; "E"; "z"; "Z"] (Keyboard.key event)
      else oneOf arrows (Keyboard.key event)
           || ((Keyboard.tabIndex el =? -1) && oneOf [" "; "Enter"] (Keyboard.key event))).

(** The same event with the alt key as given. *)
Definition withAlt (alt : bool) (event : Keyboard.KeyboardEvent) : Keyboard.KeyboardEvent :=
  {| Keyboard.key := Keyboard.key event;
     Keyboard.ctrlKey := Keyboard.ctrlKey event;
     Keyboard.altKey := alt;
     Keyboard.shiftKey := Keyboard.shiftKey event |}.

(** The same event with the shift flag as given. *)
Definition withShift (shift : bool) (event : Keyboard.KeyboardEvent) : Keyboard.KeyboardEvent :=
  {| Keyboard.key := Keyboard.key event;
     Keyboard.ctrlKey := Keyboard.ctrlKey event;
     Keyboard.altKey := Keyboard.altKey event;
     Keyboard.shiftKey := shift |}.

Definition chord (k : string) : Keyboard.KeyboardEvent :=
  {| Keyboard.key := k; Keyboard.ctrlKey := true;
     Keyboard.altKey := false; Keyboard.shiftKey := false |}.

End Keys.

(** Bookkeeping over runs of the gateway. *)
Module Flow.
Section Flow.

Context {State Patch : Type} `{PatchAction State Patch}.

(** What one event does to the state when it occurs: a fulfilled patch
    command patches it, a fulfilled [getState] is assigned onto it,
    anything else leaves it. *)
Definition absorbOne (s : State) (e : @Gateway.Event State Patch) : State :=
  match e with
  | Gateway.Fulfil _ (Gateway.PatchResponse p) => fst (patch s p)
  | Gateway.Fulfil _ (Gateway.Snapshot s') => assign s s'
  | _ => s
  end.

Definition absorb (s : State) (es : list (@Gateway.Event State Patch)) : State :=
  List.fold_left absorbOne es s.

(** Round-trip numbers from [nextId] on are not in use. *)
Definition wellFormed (g : @Gateway.t State) : Prop :=
  forall id, (Gateway.nextId g <= id)%nat -> Gateway.pending g !! id = None.

(** Number of wrapper calls among the events. *)
Fixpoint issued (es : list (@Gateway.Event State Patch)) : nat :=
  match es with
  | [] => O
  | Gateway.Call _ :: es' => S (issued es')
  | _ :: es' => issued es'
  end.

(** Number of round-trips that settle among the events. *)
Fixpoint settled (es : list (@Gateway.Event State Patch)) : nat :=
  match es with
  | [] => O
  | Gateway.Call _ :: es' => settled es'
  | _ :: es' => S (settled es')
  end.

End Flow.
End Flow.

(** Sample runs of the gateway over the JSON store. *)
Module Runs.

(** [undo] then [redo]; the response of [redo] resolves first. *)
Definition raced : list (@Gateway.Event Json.t JsonPatch.Patch) :=
  [ Gateway.Call Api.undo; Gateway.Call Api.redo;
    Gateway.Fulfil 1 (Sample.focused "b.tiger");
    Gateway.Fulfil 0 (Sample.focused "a.tiger") ].

(** Two calls, the first of which is rejected while the second is still
    suspended. *)
Definition stalled : list (@Gateway.Event Json.t JsonPatch.Patch) :=
  [ Gateway.Call Api.undo; Gateway.Call Api.redo; Gateway.Reject 0 ].

(** A patch lands while a [getState] is suspended. *)
Definition refreshed : list (@Gateway.Event Json.t JsonPatch.Patch) :=
  [ Gateway.Call (Api.focusDocument "a.tiger"); Gateway.Call Api.getState;
    Gateway.Fulfil 0 (Sample.focused "a.tiger") ].

(** A [getState] response that carries only the error slot. *)
Definition errorOnly : Json.t := Json.Obj [("error", Json.Str "disk full")].

Definition partialSnapshot : @Gateway.Event Json.t JsonPatch.Patch :=
  Gateway.Fulfil 1 (Gateway.Snapshot errorOnly).

End Runs.


(* ===================================================================== *)
(** * Properties *)
(* ===================================================================== *)

(** ** The getters and the state they read *)

Section HeapViews.

Import Evaluation.

Context `{JS.Host}.

Lemma bind_normal {A B} (c : M A) (k : A -> M B) (h h' : Heap) (x : A) :
  c h = Some (JS.Normal x, h') -> (c ≫= k) h = k x h'.
Proof. intros Hc. unfold mbind, M_bind. rewrite Hc. reflexivity. Qed.

Lemma bind_throws {A B} (c : M A) (k : A -> M B) (h h' : Heap) :
  c h = Some (JS.Throws, h') -> (c ≫= k) h = Some (JS.Throws, h').
Proof. intros Hc. unfold mbind, M_bind. rewrite Hc. reflexivity. Qed.

Lemma mapM_impl {A B} (f g : A -> option B) (l : list A) (k : list B) :
  (forall x y, f x = Some y -> g x = Some y) -> mapM f l = Some k -> mapM g l = Some k.
Proof.
  intros Hfg Hl. apply mapM_Some. apply mapM_Some in Hl.
  eapply Forall2_impl; [exact Hl | exact Hfg].
Qed.

Lemma heap_weaken (h h' : Heap) (l : Loc) (c : Cell) :
  h ⊆ h' -> h !! l = Some c -> h' !! l = Some c.
Proof. intros Hsub Hc. exact (lookup_weaken (M := gmap Loc) h h' l c Hc Hsub). Qed.

Lemma viewHitboxes_mono (h h' : Heap) (l : Loc) (v : list Hitbox.t) :
  h ⊆ h' -> viewHitboxes h l = Some v -> viewHitboxes h' l = Some v.
Proof.
  unfold viewHitboxes. intros Hsub Hv.
  apply bind_Some in Hv as (c & Hc & Hv).
  rewrite (heap_weaken _ _ _ _ Hsub Hc). exact Hv.
Qed.

Lemma viewKeyframe_mono (h h' : Heap) (k : KeyframeRef) (v : Keyframe.t) :
  h ⊆ h' -> viewKeyframe h k = Some v -> viewKeyframe h' k = Some v.
Proof.
  unfold viewKeyframe. intros Hsub Hv.
  apply bind_Some in Hv as (c & Hc & Hv).
  rewrite (viewHitboxes_mono _ _ _ _ Hsub Hc). exact Hv.
Qed.

Lemma viewKeyframes_mono (h h' : Heap) (l : Loc) (v : list Keyframe.t) :
  h ⊆ h' -> viewKeyframes h l = Some v -> viewKeyframes h' l = Some v.
Proof.
  unfold viewKeyframes. intros Hsub Hv.
  apply bind_Some in Hv as (c & Hc & Hv).
  apply bind_Some in Hv as (ks & Hks & Hv).
  rewrite (heap_weaken _ _ _ _ Hsub Hc). cbn. rewrite Hks. cbn.
  eapply mapM_impl; [| exact Hv]. intros x y. apply viewKeyframe_mono, Hsub.
Qed.

Lemma viewSequence_mono (h h' : Heap) (s : SequenceRef) (v : Sequence.t) :
  h ⊆ h' -> viewSequence h s = Some v -> viewSequence h' s = Some v.
Proof.
  unfold viewSequence. intros Hsub Hv.
  apply bind_Some in Hv as (c & Hc & Hv).
  rewrite (viewKeyframes_mono _ _ _ _ Hsub Hc). exact Hv.
Qed.

Lemma viewDict_mono {A B} (view view' : A -> option B) (o : JS.Dict A) (v : JS.Dict B) :
  (forall x y, view x = Some y -> view' x = Some y) ->
  viewDict view o = Some v -> viewDict view' o = Some v.
Proof.
  intros Hview. unfold viewDict. apply mapM_impl. intros [k x] [k' y].
  unfold viewEntry. cbn [fst snd]. intros Hv.
  apply bind_Some in Hv as (c & Hc & Hv). rewrite (Hview _ _ Hc). exact Hv.
Qed.

Lemma viewAnimation_mono (h h' : Heap) (a : AnimationRef) (v : Animation.t) :
  h ⊆ h' -> viewAnimation h a = Some v -> viewAnimation h' a = Some v.
Proof.
  unfold viewAnimation. intros Hsub Hv.
  apply bind_Some in Hv as (c & Hc & Hv).
  rewrite (viewDict_mono _ (viewSequence h') _ _
             (fun x y => viewSequence_mono h h' x y Hsub) Hc).
  exact Hv.
Qed.

Lemma viewFrames_mono (h h' : Heap) (l : Loc) (v : list Frame.t) :
  h ⊆ h' -> viewFrames h l = Some v -> viewFrames h' l = Some v.
Proof.
  unfold viewFrames. intros Hsub Hv.
  apply bind_Some in Hv as (c & Hc & Hv).
  rewrite (heap_weaken _ _ _ _ Hsub Hc). exact Hv.
Qed.

Lemma viewSheet_mono (h h' : Heap) (s : SheetRef) (v : Sheet.t) :
  h ⊆ h' -> viewSheet h s = Some v -> viewSheet h' s = Some v.
Proof.
  unfold viewSheet. intros Hsub Hv.
  apply bind_Some in Hv as (fs & Hfs & Hv).
  apply bind_Some in Hv as (an & Han & Hv).
  rewrite (viewFrames_mono _ _ _ _ Hsub Hfs). cbn.
  rewrite (viewDict_mono _ (viewAnimation h') _ _
             (fun x y => viewAnimation_mono h h' x y Hsub) Han).
  exact Hv.
Qed.

Lemma viewDocument_mono (h h' : Heap) (d : DocumentRef) (v : Document.t) :
  h ⊆ h' -> viewDocument h d = Some v -> viewDocument h' d = Some v.
Proof.
  unfold viewDocument. intros Hsub Hv.
  apply bind_Some in Hv as (c & Hc & Hv).
  rewrite (viewSheet_mono _ _ _ _ Hsub Hc). exact Hv.
Qed.

Lemma viewAnimations_mono (h h' : Heap) (l : Loc) (v : list Animation.t) :
  h ⊆ h' -> viewAnimations h l = Some v -> viewAnimations h' l = Some v.
Proof.
  unfold viewAnimations. intros Hsub Hv.
  apply bind_Some in Hv as (c & Hc & Hv).
  apply bind_Some in Hv as (ks & Hks & Hv).
  rewrite (heap_weaken _ _ _ _ Hsub Hc). cbn. rewrite Hks. cbn.
  eapply mapM_impl; [| exact Hv]. intros x y. apply viewAnimation_mono, Hsub.
Qed.

(** A heap that extends one holding a state holds the same state. *)
Lemma snapshot_mono (h h' : Heap) (state : StateRef) (s : AppState) :
  h ⊆ h' -> snapshot h state = Some s -> snapshot h' state = Some s.
Proof.
  unfold snapshot. intros Hsub Hv.
  apply bind_Some in Hv as (c & Hc & Hv).
  apply bind_Some in Hv as (ds & Hds & Hv).
  apply bind_Some in Hv as (docs & Hdocs & Hv).
  apply bind_Some in Hv as (r & Hr & Hv).
  apply bind_Some in Hv as (recent & Hrecent & Hv).
  rewrite (heap_weaken _ _ _ _ Hsub Hc). cbn. rewrite Hds. cbn.
  rewrite (mapM_impl _ (viewDocument h') _ _
             (fun x y => viewDocument_mono h h' x y Hsub) Hdocs). cbn.
  rewrite (heap_weaken _ _ _ _ Hsub Hr). cbn. rewrite Hrecent. exact Hv.
Qed.


(** *** What the views commute with *)

Lemma find_view {A B} (view : A -> option B) (p : A -> bool) (q : B -> bool)
      (l : list A) (k : list B) :
  (forall x y, view x = Some y -> p x = q y) ->
  mapM view l = Some k ->
  viewOption view (List.find p l) = Some (List.find q k).
Proof.
  intros Hpq Hl. apply mapM_Some in Hl.
  induction Hl as [| x y l k Hxy _ IH]; cbn [List.find viewOption]; [reflexivity |].
  rewrite <- (Hpq _ _ Hxy). destruct (p x); [| exact IH].
  cbn [viewOption]. rewrite Hxy. reflexivity.
Qed.

Lemma viewDict_entries {A B} (view : A -> option B) (o : JS.Dict A) (o' : JS.Dict B) :
  viewDict view o = Some o' ->
  Forall2 (fun e e' => fst e = fst e' /\ view (snd e) = Some (snd e')) o o'.
Proof.
  unfold viewDict. intros Ho. apply mapM_Some in Ho.
  eapply Forall2_impl; [exact Ho |]. intros [k x] [k' y]. unfold viewEntry. cbn [fst snd].
  intros Hv. apply bind_Some in Hv as (c & Hc & [= <- <-]). split; [reflexivity | exact Hc].
Qed.

Lemma objectValues_view {A B} (view : A -> option B) (o : JS.Dict A) (o' : JS.Dict B) :
  viewDict view o = Some o' ->
  mapM view (JS.objectValues o) = Some (JS.objectValues o').
Proof.
  intros Ho. apply viewDict_entries in Ho. apply mapM_Some. unfold JS.objectValues.
  induction Ho as [| e e' o o' [_ He] _ IH]; cbn [List.map]; constructor; assumption.
Qed.

Lemma lookup_view {A B} (view : A -> option B) (o : JS.Dict A) (o' : JS.Dict B)
      (k : string) :
  viewDict view o = Some o' ->
  viewProperty view (JS.lookup o k) = Some (JS.lookup o' k).
Proof.
  intros Ho. apply viewDict_entries in Ho. unfold JS.lookup.
  induction Ho as [| [k0 x] [k0' y] o o' [Hk He] _ IH]; cbn [JS.getProp].
  - destruct (JS.inherited k); reflexivity.
  - cbn [fst snd] in Hk, He. subst k0'.
    destruct (String.eqb k0 k); [| exact IH].
    cbn [viewProperty]. rewrite He. reflexivity.
Qed.

Lemma insertBy_view {A B} (view : A -> option B) (cmp : A -> A -> Z) (cmp' : B -> B -> Z)
      (x : A) (y : B) (l : list A) (k : list B) :
  (forall a b a' b', view a = Some a' -> view b = Some b' -> cmp a b = cmp' a' b') ->
  view x = Some y ->
  Forall2 (fun a a' => view a = Some a') l k ->
  Forall2 (fun a a' => view a = Some a') (JS.insertBy cmp x l) (JS.insertBy cmp' y k).
Proof.
  intros Hcmp Hxy Hl. induction Hl as [| a a' l k Ha Hl IH]; cbn [JS.insertBy].
  - repeat constructor. exact Hxy.
  - rewrite <- (Hcmp _ _ _ _ Hxy Ha). destruct (0 <? cmp x a).
    + constructor; [exact Ha | exact IH].
    + constructor; [exact Hxy | constructor; [exact Ha | exact Hl]].
Qed.

Lemma sorted_view {A B} (view : A -> option B) (cmp : A -> A -> Z) (cmp' : B -> B -> Z)
      (l : list A) (k : list B) :
  (forall a b a' b', view a = Some a' -> view b = Some b' -> cmp a b = cmp' a' b') ->
  mapM view l = Some k ->
  mapM view (JS.sorted cmp l) = Some (JS.sorted cmp' k).
Proof.
  intros Hcmp Hl. apply mapM_Some. apply mapM_Some in Hl. unfold JS.sorted.
  induction Hl as [| a a' l k Ha _ IH]; cbn [List.fold_right]; [constructor |].
  apply insertBy_view; assumption.
Qed.

Lemma filter_view {A B} (view : A -> option B) (p : A -> bool) (q : B -> bool)
      (l : list A) (k : list B) :
  (forall x y, view x = Some y -> p x = q y) ->
  mapM view l = Some k ->
  mapM view (List.filter p l) = Some (List.filter q k).
Proof.
  intros Hpq Hl. apply mapM_Some. apply mapM_Some in Hl.
  induction Hl as [| x y l k Hxy _ IH]; cbn [List.filter]; [constructor |].
  rewrite <- (Hpq _ _ Hxy). destruct (p x); [constructor |]; assumption.
Qed.

Lemma arrayGet_view {A B} (view : A -> option B) (l : list A) (k : list B) (i : Z) :
  mapM view l = Some k ->
  viewOption view (JS.arrayGet l i) = Some (JS.arrayGet k i).
Proof.
  intros Hl. apply mapM_Some in Hl. unfold JS.arrayGet.
  destruct (i <? 0); [reflexivity |].
  generalize (Z.to_nat i). intros n. revert n.
  induction Hl as [| x y l k Hxy _ IH]; intros [| n]; cbn [nth_error viewOption];
    try reflexivity.
  - rewrite Hxy. reflexivity.
  - apply IH.
Qed.

Lemma app_view {A B} (view : A -> option B) (l1 l2 : list A) (k1 k2 : list B) :
  mapM view l1 = Some k1 -> mapM view l2 = Some k2 ->
  mapM view (l1 ++ l2) = Some (k1 ++ k2).
Proof.
  intros H1 H2. apply mapM_Some. apply mapM_Some in H1. apply mapM_Some in H2.
  apply Forall2_app; assumption.
Qed.

Lemma mapM_nonempty {A B} (view : A -> option B) (l : list A) (k : list B) :
  mapM view l = Some k ->
  match l with [] => false | _ :: _ => true end = JS.hasLength (Some k).
Proof.
  intros Hl. apply mapM_Some in Hl. destruct Hl; reflexivity.
Qed.

End HeapViews.

(** *** The primitives *)

Section HeapGetters.

Import Evaluation.

Context `{JS.Host}.

Lemma read_spec {A} (as_ : Cell -> option A) (l : Loc) (h : Heap) (c : Cell) (x : A) :
  h !! l = Some c -> as_ c = Some x -> read as_ l h = Some (JS.Normal x, h).
Proof. intros Hc Hx. unfold read. rewrite Hc, Hx. reflexivity. Qed.

Lemma heap_lookup_insert (h : Heap) (l : Loc) (c : Cell) : <[l := c]> h !! l = Some c.
Proof. apply (lookup_insert_eq (M := gmap Loc)). Qed.

Lemma heap_insert_insert (h : Heap) (l : Loc) (c c' : Cell) :
  <[l := c']> (<[l := c]> h) = <[l := c']> h.
Proof. apply (insert_insert_eq (M := gmap Loc)). Qed.

Lemma heap_insert_extends (h : Heap) (l : Loc) (c : Cell) :
  h !! l = None -> h ⊆ <[l := c]> h.
Proof. apply (insert_subseteq (M := gmap Loc)). Qed.

(** A new array is at a location that was free, so every array that
    existed stays. *)
Lemma alloc_spec (c : Cell) (h : Heap) :
  exists l h',
    alloc c h = Some (JS.Normal l, h') /\ h ⊆ h' /\ h !! l = None /\ h' = <[l := c]> h.
Proof.
  exists (fresh (dom h)), (<[fresh (dom h) := c]> h).
  assert (Hfree : h !! fresh (dom h) = None)
    by (apply (not_elem_of_dom (D := gset Loc)), is_fresh).
  split; [reflexivity |]. split; [| split; [exact Hfree | reflexivity]].
  apply heap_insert_extends, Hfree.
Qed.

(** Sorting an array that was just created touches no other. *)
Lemma sort_new (vals : list AnimationRef) (cmp : AnimationRef -> AnimationRef -> Z)
      (l : Loc) (h : Heap) :
  h !! l = None ->
  exists h',
    sort asAnimations Animations l cmp (<[l := Animations vals]> h)
    = Some (JS.Normal tt, h')
    /\ h ⊆ h' /\ h' !! l = Some (Animations (JS.sorted cmp vals)).
Proof.
  intros Hfree. exists (<[l := Animations (JS.sorted cmp vals)]> h).
  split; [| split].
  - unfold sort.
    rewrite (bind_normal _ _ _ _ _
               (read_spec asAnimations l _ (Animations vals) vals
                  (heap_lookup_insert h l _) eq_refl)).
    unfold update. rewrite heap_lookup_insert, heap_insert_insert. reflexivity.
  - apply heap_insert_extends, Hfree.
  - apply heap_lookup_insert.
Qed.


(** *** The state tree, read off a heap that holds it *)

Lemma snapshot_documents (h : Heap) (state : StateRef) (s : AppState) :
  snapshot h state = Some s ->
  exists ds,
    h !! rdocuments state = Some (Documents ds)
    /\ mapM (viewDocument h) ds = Some (documents s)
    /\ currentDocumentPath s = rcurrentDocumentPath state.
Proof.
  unfold snapshot. intros Hs.
  apply bind_Some in Hs as (c & Hc & Hs).
  apply bind_Some in Hs as (ds & Hds & Hs).
  apply bind_Some in Hs as (docs & Hdocs & Hs).
  apply bind_Some in Hs as (r & Hr & Hs).
  apply bind_Some in Hs as (recent & Hrecent & [= <-]).
  exists ds. destruct c; try discriminate. injection Hds as ->.
  split; [exact Hc | split; [exact Hdocs | reflexivity]].
Qed.

Lemma viewDocument_fields (h : Heap) (d : DocumentRef) (d' : Document.t) :
  viewDocument h d = Some d' ->
  Document.path d' = dpath d
  /\ Document.currentAnimationName d' = dcurrentAnimationName d
  /\ Document.currentSequenceDirection d' = dcurrentSequenceDirection d
  /\ Document.currentKeyframeIndex d' = dcurrentKeyframeIndex d
  /\ exists frames,
      h !! sframes (dsheet d) = Some (Frames frames)
      /\ Sheet.frames (Document.sheet d') = frames
      /\ viewDict (viewAnimation h) (sanimations (dsheet d))
         = Some (Sheet.animations (Document.sheet d')).
Proof.
  unfold viewDocument, viewSheet, viewFrames. intros Hd.
  apply bind_Some in Hd as (sheet & Hsheet & [= <-]).
  apply bind_Some in Hsheet as (frames & Hframes & Hsheet).
  apply bind_Some in Hsheet as (animations & Hanimations & [= <-]).
  apply bind_Some in Hframes as (c & Hc & Hframes).
  destruct c; try discriminate. injection Hframes as ->.
  repeat (split; [reflexivity |]).
  exists frames. split; [exact Hc | split; [reflexivity | exact Hanimations]].
Qed.

Lemma viewAnimation_fields (h : Heap) (a : AnimationRef) (a' : Animation.t) :
  viewAnimation h a = Some a' ->
  Animation.name a' = aname a
  /\ Animation.selected a' = aselected a
  /\ viewDict (viewSequence h) (asequences a) = Some (Animation.sequences a').
Proof.
  unfold viewAnimation. intros Ha.
  apply bind_Some in Ha as (sequences & Hsequences & [= <-]).
  split; [reflexivity | split; [reflexivity | exact Hsequences]].
Qed.

Lemma viewSequence_fields (h : Heap) (q : SequenceRef) (q' : Sequence.t) :
  viewSequence h q = Some q' ->
  exists ks,
    h !! skeyframes q = Some (Keyframes ks)
    /\ mapM (viewKeyframe h) ks = Some (Sequence.keyframes q').
Proof.
  unfold viewSequence, viewKeyframes. intros Hq.
  apply bind_Some in Hq as (keyframes & Hkeyframes & [= <-]).
  apply bind_Some in Hkeyframes as (c & Hc & Hkeyframes).
  apply bind_Some in Hkeyframes as (ks & Hks & Hkeyframes).
  destruct c; try discriminate. injection Hks as ->.
  exists ks. split; [exact Hc | exact Hkeyframes].
Qed.

Lemma viewKeyframe_fields (h : Heap) (k : KeyframeRef) (k' : Keyframe.t) :
  viewKeyframe h k = Some k' ->
  Keyframe.selected k' = kselected k
  /\ h !! khitboxes k = Some (Hitboxes (Keyframe.hitboxes k')).
Proof.
  unfold viewKeyframe, viewHitboxes. intros Hk.
  apply bind_Some in Hk as (hitboxes & Hhitboxes & [= <-]).
  apply bind_Some in Hhitboxes as (c & Hc & Hhitboxes).
  destruct c; try discriminate. injection Hhitboxes as ->.
  split; [reflexivity | exact Hc].
Qed.

(** *** Each getter against its value *)

Lemma currentDocument_spec (h : Heap) (state : StateRef) (s : AppState) :
  snapshot h state = Some s ->
  exists r,
    currentDocument state h = Some (JS.Normal r, h)
    /\ viewOption (viewDocument h) r = Some (Getters.currentDocument s).
Proof.
  intros Hs. apply snapshot_documents in Hs as (ds & Hds & Hdocs & Hpath).
  exists (List.find (isCurrent state) ds). split.
  - unfold currentDocument.
    rewrite (bind_normal _ _ _ _ _ (read_spec asDocuments _ _ _ ds Hds eq_refl)).
    reflexivity.
  - unfold Getters.currentDocument. apply find_view; [| exact Hdocs].
    intros d d' Hd. apply viewDocument_fields in Hd as (Hp & _).
    unfold isCurrent, Getters.isCurrent. rewrite Hpath, Hp. reflexivity.
Qed.

(** The two ways [currentDocument] ends. *)
Lemma currentDocument_cases (h : Heap) (state : StateRef) (s : AppState) :
  snapshot h state = Some s ->
  (currentDocument state h = Some (JS.Normal None, h)
   /\ Getters.currentDocument s = None)
  \/ (exists d d',
         currentDocument state h = Some (JS.Normal (Some d), h)
         /\ viewDocument h d = Some d'
         /\ Getters.currentDocument s = Some d').
Proof.
  intros Hs. apply currentDocument_spec in Hs as ([d |] & Hrun & Hview);
    cbn [viewOption] in Hview.
  - right. apply fmap_Some in Hview as (d' & Hd & [= Hs]).
    exists d, d'. split; [exact Hrun | split; [exact Hd | exact Hs]].
  - left. injection Hview as Hview. split; [exact Hrun | symmetry; exact Hview].
Qed.

Lemma currentAnimation_spec (h : Heap) (state : StateRef) (s : AppState) :
  snapshot h state = Some s ->
  exists r,
    currentAnimation state h = Some (JS.Normal r, h)
    /\ viewProperty (viewAnimation h) r = Some (Getters.currentAnimation s).
Proof.
  intros Hs. unfold currentAnimation, Getters.currentAnimation.
  destruct (currentDocument_cases h state s Hs)
    as [[Hrun Hnone] | (d & d' & Hrun & Hd & Hsome)];
    rewrite (bind_normal _ _ _ _ _ Hrun).
  - rewrite Hnone. exists JS.Absent. split; reflexivity.
  - rewrite Hsome. apply viewDocument_fields in Hd as (_ & -> & _ & _ & frames & _ & _ & Ha).
    destruct (JS.truthyString (dcurrentAnimationName d)) as [n |].
    + exists (JS.lookup (sanimations (dsheet d)) n). split; [reflexivity |].
      apply lookup_view, Ha.
    + exists JS.Absent. split; reflexivity.
Qed.

Lemma currentDirection_spec (h : Heap) (state : StateRef) (s : AppState) :
  snapshot h state = Some s ->
  currentDirection state h = Some (JS.Normal (Getters.currentDirection s), h).
Proof.
  intros Hs. unfold currentDirection, Getters.currentDirection.
  destruct (currentDocument_cases h state s Hs)
    as [[Hrun Hnone] | (d & d' & Hrun & Hd & Hsome)];
    rewrite (bind_normal _ _ _ _ _ Hrun).
  - rewrite Hnone. reflexivity.
  - rewrite Hsome. apply viewDocument_fields in Hd as (_ & _ & -> & _). reflexivity.
Qed.

Lemma currentIndex_spec (h : Heap) (state : StateRef) (s : AppState) :
  snapshot h state = Some s ->
  currentIndex state h = Some (JS.Normal (Getters.currentIndex s), h).
Proof.
  intros Hs. unfold currentIndex, Getters.currentIndex.
  destruct (currentDocument_cases h state s Hs)
    as [[Hrun Hnone] | (d & d' & Hrun & Hd & Hsome)];
    rewrite (bind_normal _ _ _ _ _ Hrun).
  - rewrite Hnone. reflexivity.
  - rewrite Hsome. apply viewDocument_fields in Hd as (_ & _ & _ & -> & _). reflexivity.
Qed.

Lemma currentSequence_spec (h : Heap) (state : StateRef) (s : AppState) :
  snapshot h state = Some s ->
  exists r,
    currentSequence state h = Some (r, h)
    /\ viewCompletion (viewProperty (viewSequence h)) r = Some (Getters.currentSequence s).
Proof.
  intros Hs. unfold currentSequence, Getters.currentSequence.
  destruct (currentAnimation_spec h state s Hs) as ([a | m |] & Hrun & Hview);
    rewrite (bind_normal _ _ _ _ _ Hrun); cbn [viewProperty] in Hview.
  - apply fmap_Some in Hview as (a' & Ha & ->).
    apply viewAnimation_fields in Ha as (_ & _ & Hsequences).
    rewrite (bind_normal _ _ _ _ _ (currentDirection_spec h state s Hs)).
    destruct (Getters.currentDirection s) as [dir |].
    + exists (JS.Normal (JS.lookup (asequences a) dir)). split; [reflexivity |].
      cbn [viewCompletion]. rewrite (lookup_view _ _ _ dir Hsequences). reflexivity.
    + exists (JS.Normal JS.Absent). split; reflexivity.
  - injection Hview as <-.
    rewrite (bind_normal _ _ _ _ _ (currentDirection_spec h state s Hs)).
    destruct (Getters.currentDirection s) as [dir |].
    + exists JS.Throws. split; reflexivity.
    + exists (JS.Normal JS.Absent). split; reflexivity.
  - injection Hview as <-. exists (JS.Normal JS.Absent). split; reflexivity.
Qed.

Lemma currentKeyframe_spec (h : Heap) (state : StateRef) (s : AppState) :
  snapshot h state = Some s ->
  exists r,
    currentKeyframe state h = Some (r, h)
    /\ viewCompletion (viewOption (viewKeyframe h)) r = Some (Getters.currentKeyframe s).
Proof.
  intros Hs. unfold currentKeyframe, Getters.currentKeyframe.
  destruct (currentSequence_spec h state s Hs) as ([[q | m |] |] & Hrun & Hview);
    cbn [viewCompletion viewProperty] in Hview.
  - rewrite (bind_normal _ _ _ _ _ Hrun).
    apply fmap_Some in Hview as (p & Hp & Hq).
    apply fmap_Some in Hp as (q' & Hq' & ->). rewrite Hq.
    apply viewSequence_fields in Hq' as (ks & Hks & Hkeyframes).
    rewrite (bind_normal _ _ _ _ _ (currentIndex_spec h state s Hs)).
    destruct (Getters.currentIndex s) as [i |].
    + rewrite (bind_normal _ _ _ _ _ (read_spec asKeyframes _ _ _ ks Hks eq_refl)).
      exists (JS.Normal (JS.arrayGet ks i)). split; [reflexivity |].
      cbn [viewCompletion]. rewrite (arrayGet_view _ _ _ i Hkeyframes). reflexivity.
    + exists (JS.Normal None). split; reflexivity.
  - rewrite (bind_normal _ _ _ _ _ Hrun). injection Hview as <-.
    rewrite (bind_normal _ _ _ _ _ (currentIndex_spec h state s Hs)).
    destruct (Getters.currentIndex s) as [i |].
    + exists JS.Throws. split; reflexivity.
    + exists (JS.Normal None). split; reflexivity.
  - rewrite (bind_normal _ _ _ _ _ Hrun). injection Hview as <-.
    exists (JS.Normal None). split; reflexivity.
  - rewrite (bind_throws _ _ _ _ Hrun). injection Hview as <-.
    exists JS.Throws. split; reflexivity.
Qed.


Lemma compareNames_view (h : Heap) (a b : AnimationRef) (a' b' : Animation.t) :
  viewAnimation h a = Some a' -> viewAnimation h b = Some b' ->
  compareNames a b = Getters.compareNames a' b'.
Proof.
  intros Ha Hb.
  apply viewAnimation_fields in Ha as (Ha & _), Hb as (Hb & _).
  unfold compareNames, Getters.compareNames. rewrite Ha, Hb. reflexivity.
Qed.

Lemma sortedAnimations_spec (h : Heap) (state : StateRef) (s : AppState) :
  snapshot h state = Some s ->
  exists r h',
    sortedAnimations state h = Some (JS.Normal r, h')
    /\ h ⊆ h'
    /\ viewOption (viewAnimations h') r = Some (Getters.sortedAnimations s).
Proof.
  intros Hs. unfold sortedAnimations, Getters.sortedAnimations.
  destruct (currentDocument_cases h state s Hs)
    as [[Hrun Hnone] | (d & d' & Hrun & Hd & Hsome)];
    rewrite (bind_normal _ _ _ _ _ Hrun).
  - rewrite Hnone. exists None, h. split; [reflexivity | split; reflexivity].
  - rewrite Hsome. apply viewDocument_fields in Hd as (_ & _ & _ & _ & frames & _ & _ & Ha).
    destruct (alloc_spec (Animations (JS.objectValues (sanimations (dsheet d)))) h)
      as (l & h1 & Halloc & _ & Hfree & ->).
    rewrite (bind_normal _ _ _ _ _ Halloc).
    destruct (sort_new (JS.objectValues (sanimations (dsheet d))) compareNames l h Hfree)
      as (h2 & Hsort & Hsub & Hl).
    rewrite (bind_normal _ _ _ _ _ Hsort).
    exists (Some l), h2. split; [reflexivity | split; [exact Hsub |]].
    cbn [viewOption]. unfold viewAnimations. rewrite Hl. cbn.
    erewrite sorted_view; [reflexivity | |].
    + intros a b a' b'. apply compareNames_view.
    + apply objectValues_view.
      eapply viewDict_mono; [| exact Ha]. intros x y. apply viewAnimation_mono, Hsub.
Qed.

Lemma selectedFrames_spec (h : Heap) (state : StateRef) (s : AppState) :
  snapshot h state = Some s ->
  exists r h',
    selectedFrames state h = Some (JS.Normal r, h')
    /\ h ⊆ h'
    /\ viewOption (viewFrames h') r = Some (Getters.selectedFrames s).
Proof.
  intros Hs. unfold selectedFrames, Getters.selectedFrames.
  destruct (currentDocument_cases h state s Hs)
    as [[Hrun Hnone] | (d & d' & Hrun & Hd & Hsome)];
    rewrite (bind_normal _ _ _ _ _ Hrun).
  - rewrite Hnone. exists None, h. split; [reflexivity | split; reflexivity].
  - rewrite Hsome.
    apply viewDocument_fields in Hd as (_ & _ & _ & _ & frames & Hframes & -> & _).
    rewrite (bind_normal _ _ _ _ _ (read_spec asFrames _ _ _ frames Hframes eq_refl)).
    destruct (alloc_spec (Frames (List.filter Frame.selected frames)) h)
      as (l & h1 & Halloc & Hsub & _ & ->).
    rewrite (bind_normal _ _ _ _ _ Halloc).
    exists (Some l), (<[l := Frames (List.filter Frame.selected frames)]> h).
    split; [reflexivity | split; [exact Hsub |]].
    cbn [viewOption]. unfold viewFrames. rewrite heap_lookup_insert. reflexivity.
Qed.

Lemma selectedAnimations_spec (h : Heap) (state : StateRef) (s : AppState) :
  snapshot h state = Some s ->
  exists r h',
    selectedAnimations state h = Some (JS.Normal r, h')
    /\ h ⊆ h'
    /\ viewOption (viewAnimations h') r = Some (Getters.selectedAnimations s).
Proof.
  intros Hs. unfold selectedAnimations, Getters.selectedAnimations.
  destruct (sortedAnimations_spec h state s Hs) as ([sorted |] & h1 & Hrun & Hsub & Hview);
    rewrite (bind_normal _ _ _ _ _ Hrun); cbn [viewOption] in Hview.
  - apply fmap_Some in Hview as (l' & Hl' & [= ->]).
    unfold viewAnimations in Hl'.
    apply bind_Some in Hl' as (c & Hc & Hl').
    apply bind_Some in Hl' as (xs & Hxs & Hl').
    rewrite (bind_normal _ _ _ _ _ (read_spec asAnimations _ _ _ xs Hc Hxs)).
    destruct (alloc_spec (Animations (List.filter aselected xs)) h1)
      as (l & h2 & Halloc & Hsub' & _ & ->).
    rewrite (bind_normal _ _ _ _ _ Halloc).
    exists (Some l), (<[l := Animations (List.filter aselected xs)]> h1).
    split; [reflexivity | split; [etransitivity; eassumption |]].
    cbn [viewOption]. unfold viewAnimations. rewrite heap_lookup_insert. cbn.
    erewrite filter_view; [reflexivity | |].
    + intros x y Hx. apply viewAnimation_fields in Hx as (_ & Hx & _). symmetry. exact Hx.
    + eapply mapM_impl; [| exact Hl']. intros x y. apply viewAnimation_mono, Hsub'.
  - injection Hview as <-. exists None, h1. split; [reflexivity | split; [exact Hsub | reflexivity]].
Qed.

Lemma selectedHitboxes_spec (h : Heap) (state : StateRef) (s : AppState) :
  snapshot h state = Some s ->
  exists r h',
    selectedHitboxes state h = Some (r, h')
    /\ h ⊆ h'
    /\ viewCompletion (viewOption (viewHitboxes h')) r = Some (Getters.selectedHitboxes s).
Proof.
  intros Hs. unfold selectedHitboxes, Getters.selectedHitboxes.
  destruct (currentKeyframe_spec h state s Hs) as ([[k |] |] & Hrun & Hview);
    cbn [viewCompletion viewOption] in Hview.
  - rewrite (bind_normal _ _ _ _ _ Hrun).
    apply fmap_Some in Hview as (p & Hp & ->).
    apply fmap_Some in Hp as (k' & Hk' & ->).
    apply viewKeyframe_fields in Hk' as (_ & Hboxes).
    rewrite (bind_normal _ _ _ _ _ (read_spec asHitboxes _ _ _ _ Hboxes eq_refl)).
    destruct (alloc_spec (Hitboxes (List.filter Hitbox.selected (Keyframe.hitboxes k'))) h)
      as (l & h1 & Halloc & Hsub & _ & ->).
    rewrite (bind_normal _ _ _ _ _ Halloc).
    eexists (JS.Normal (Some l)), _. split; [reflexivity | split; [exact Hsub |]].
    cbn [viewCompletion viewOption]. unfold viewHitboxes.
    rewrite heap_lookup_insert. reflexivity.
  - rewrite (bind_normal _ _ _ _ _ Hrun). injection Hview as <-.
    exists (JS.Normal None), h. split; [reflexivity | split; reflexivity].
  - rewrite (bind_throws _ _ _ _ Hrun). injection Hview as <-.
    exists JS.Throws, h. split; [reflexivity | split; reflexivity].
Qed.

Lemma selectedOfEach_spec (sequences : list SequenceRef) :
  forall (sequences' : list Sequence.t) (h : Heap),
    mapM (viewSequence h) sequences = Some sequences' ->
    exists flat h',
      selectedOfEach sequences h = Some (JS.Normal flat, h')
      /\ h ⊆ h'
      /\ mapM (viewKeyframe h') flat
         = Some (List.flat_map
                   (fun sequence => List.filter Keyframe.selected (Sequence.keyframes sequence))
                   sequences').
Proof.
  induction sequences as [| q sequences IH]; intros sequences' h Hall;
    apply mapM_Some in Hall; inversion Hall as [| ? q' ? rest Hq Hrest]; subst;
    cbn [selectedOfEach List.flat_map].
  - exists [], h. split; [reflexivity | split; reflexivity].
  - apply viewSequence_fields in Hq as (ks & Hks & Hkeyframes).
    rewrite (bind_normal _ _ _ _ _ (read_spec asKeyframes _ _ _ ks Hks eq_refl)).
    destruct (alloc_spec (Keyframes (List.filter kselected ks)) h)
      as (l & h1 & Halloc & Hsub & _ & ->).
    rewrite (bind_normal _ _ _ _ _ Halloc).
    rewrite (bind_normal _ _ _ _ _
               (read_spec asKeyframes l _ (Keyframes (List.filter kselected ks)) _
                  (heap_lookup_insert h l _) eq_refl)).
    destruct (IH rest (<[l := Keyframes (List.filter kselected ks)]> h))
      as (flat & h2 & Hrun & Hsub' & Hflat).
    { apply mapM_Some. eapply Forall2_impl; [exact Hrest |].
      intros x y. apply viewSequence_mono, Hsub. }
    rewrite (bind_normal _ _ _ _ _ Hrun).
    exists (List.filter kselected ks ++ flat), h2.
    split; [reflexivity | split; [etransitivity; eassumption |]].
    apply app_view; [| exact Hflat].
    apply filter_view.
    + intros x y Hx. apply viewKeyframe_fields in Hx as (Hx & _). symmetry. exact Hx.
    + eapply mapM_impl; [| exact Hkeyframes].
      intros x y. apply viewKeyframe_mono. etransitivity; eassumption.
Qed.

Lemma selectedKeyframes_spec (h : Heap) (state : StateRef) (s : AppState) :
  snapshot h state = Some s ->
  exists r h',
    selectedKeyframes state h = Some (r, h')
    /\ h ⊆ h'
    /\ viewCompletion (viewOption (viewKeyframes h')) r = Some (Getters.selectedKeyframes s).
Proof.
  intros Hs. unfold selectedKeyframes, Getters.selectedKeyframes.
  destruct (currentAnimation_spec h state s Hs) as ([a | m |] & Hrun & Hview);
    rewrite (bind_normal _ _ _ _ _ Hrun); cbn [viewProperty] in Hview.
  - apply fmap_Some in Hview as (a' & Ha & ->).
    apply viewAnimation_fields in Ha as (_ & _ & Hsequences).
    destruct (alloc_spec (Sequences (JS.objectValues (asequences a))) h)
      as (l & h1 & Halloc & Hsub & _ & ->).
    rewrite (bind_normal _ _ _ _ _ Halloc).
    rewrite (bind_normal _ _ _ _ _
               (read_spec asSequences l _ (Sequences (JS.objectValues (asequences a))) _
                  (heap_lookup_insert h l _) eq_refl)).
    destruct (selectedOfEach_spec (JS.objectValues (asequences a))
                (JS.objectValues (Animation.sequences a'))
                (<[l := Sequences (JS.objectValues (asequences a))]> h))
      as (flat & h2 & Heach & Hsub' & Hflat).
    { apply objectValues_view. eapply viewDict_mono; [| exact Hsequences].
      intros x y. apply viewSequence_mono, Hsub. }
    rewrite (bind_normal _ _ _ _ _ Heach).
    destruct (alloc_spec (Keyframes flat) h2) as (l' & h3 & Hresult & Hsub'' & _ & ->).
    rewrite (bind_normal _ _ _ _ _ Hresult).
    eexists (JS.Normal (Some l')), _. split; [reflexivity | split].
    + etransitivity; [exact Hsub |]. etransitivity; eassumption.
    + cbn [viewCompletion viewOption]. unfold viewKeyframes.
      rewrite heap_lookup_insert. cbn.
      erewrite mapM_impl; [reflexivity | | exact Hflat].
      intros x y. apply viewKeyframe_mono, Hsub''.
  - injection Hview as <-. exists JS.Throws, h. split; [reflexivity | split; reflexivity].
  - injection Hview as <-. exists (JS.Normal None), h.
    split; [reflexivity | split; reflexivity].
Qed.


(** *** The getters leave the state alone *)

(** From what a getter computes on a heap holding [s] to [ReadOnly]:
    the heap it leaves extends the one it started on, so it holds [s]
    still. *)
Lemma readOnly_intro {R V} (getter : StateRef -> M R) (view : Heap -> R -> option V)
      (result : AppState -> JS.Completion V) :
  (forall h state s,
      snapshot h state = Some s ->
      exists r h',
        getter state h = Some (r, h') /\ h ⊆ h'
        /\ viewCompletion (view h') r = Some (result s)) ->
  ReadOnly getter view result.
Proof.
  intros Hspec h state s Hs. destruct (Hspec h state s Hs) as (r & h' & Hrun & Hsub & Hview).
  exists r, h'. split; [exact Hrun | split; [exact Hsub | split; [| exact Hview]]].
  exact (snapshot_mono h h' state s Hsub Hs).
Qed.

Lemma currentDocument_readOnly :
  ReadOnly currentDocument (fun h => viewOption (viewDocument h))
           (fun s => JS.Normal (Getters.currentDocument s)).
Proof.
  apply readOnly_intro. intros h state s Hs.
  destruct (currentDocument_spec h state s Hs) as (r & Hrun & Hview).
  exists (JS.Normal r), h. split; [exact Hrun | split; [reflexivity |]].
  cbn [viewCompletion]. rewrite Hview. reflexivity.
Qed.

Lemma sortedAnimations_readOnly :
  ReadOnly sortedAnimations (fun h => viewOption (viewAnimations h))
           (fun s => JS.Normal (Getters.sortedAnimations s)).
Proof.
  apply readOnly_intro. intros h state s Hs.
  destruct (sortedAnimations_spec h state s Hs) as (r & h' & Hrun & Hsub & Hview).
  exists (JS.Normal r), h'. split; [exact Hrun | split; [exact Hsub |]].
  cbn [viewCompletion]. rewrite Hview. reflexivity.
Qed.

Lemma currentAnimation_readOnly :
  ReadOnly currentAnimation (fun h => viewProperty (viewAnimation h))
           (fun s => JS.Normal (Getters.currentAnimation s)).
Proof.
  apply readOnly_intro. intros h state s Hs.
  destruct (currentAnimation_spec h state s Hs) as (r & Hrun & Hview).
  exists (JS.Normal r), h. split; [exact Hrun | split; [reflexivity |]].
  cbn [viewCompletion]. rewrite Hview. reflexivity.
Qed.

Lemma currentSequence_readOnly :
  ReadOnly currentSequence (fun h => viewProperty (viewSequence h)) Getters.currentSequence.
Proof.
  apply readOnly_intro. intros h state s Hs.
  destruct (currentSequence_spec h state s Hs) as (r & Hrun & Hview).
  exists r, h. split; [exact Hrun | split; [reflexivity | exact Hview]].
Qed.

Lemma currentKeyframe_readOnly :
  ReadOnly currentKeyframe (fun h => viewOption (viewKeyframe h)) Getters.currentKeyframe.
Proof.
  apply readOnly_intro. intros h state s Hs.
  destruct (currentKeyframe_spec h state s Hs) as (r & Hrun & Hview).
  exists r, h. split; [exact Hrun | split; [reflexivity | exact Hview]].
Qed.

Lemma selectedFrames_readOnly :
  ReadOnly selectedFrames (fun h => viewOption (viewFrames h))
           (fun s => JS.Normal (Getters.selectedFrames s)).
Proof.
  apply readOnly_intro. intros h state s Hs.
  destruct (selectedFrames_spec h state s Hs) as (r & h' & Hrun & Hsub & Hview).
  exists (JS.Normal r), h'. split; [exact Hrun | split; [exact Hsub |]].
  cbn [viewCompletion]. rewrite Hview. reflexivity.
Qed.

Lemma selectedAnimations_readOnly :
  ReadOnly selectedAnimations (fun h => viewOption (viewAnimations h))
           (fun s => JS.Normal (Getters.selectedAnimations s)).
Proof.
  apply readOnly_intro. intros h state s Hs.
  destruct (selectedAnimations_spec h state s Hs) as (r & h' & Hrun & Hsub & Hview).
  exists (JS.Normal r), h'. split; [exact Hrun | split; [exact Hsub |]].
  cbn [viewCompletion]. rewrite Hview. reflexivity.
Qed.

Lemma selectedHitboxes_readOnly :
  ReadOnly selectedHitboxes (fun h => viewOption (viewHitboxes h)) Getters.selectedHitboxes.
Proof. apply readOnly_intro, selectedHitboxes_spec. Qed.

Lemma selectedKeyframes_readOnly :
  ReadOnly selectedKeyframes (fun h => viewOption (viewKeyframes h)) Getters.selectedKeyframes.
Proof. apply readOnly_intro, selectedKeyframes_spec. Qed.

(** [!!x?.length] reads the array [x] returned and nothing else. *)
Lemma lengthy_readOnly {A V} (as_ : Cell -> option (list A))
      (view : Heap -> Loc -> option (list V))
      (x : StateRef -> M (option Loc)) (result : AppState -> JS.Completion (option (list V))) :
  (forall h l items',
      view h l = Some items' ->
      exists c items,
        h !! l = Some c /\ as_ c = Some items
        /\ match items with [] => false | _ :: _ => true end = JS.hasLength (Some items')) ->
  ReadOnly x (fun h => viewOption (view h)) result ->
  ReadOnly (fun state => lengthy as_ (x state)) (fun _ b => Some b)
           (fun s => JS.lengthy (result s)).
Proof.
  intros Hread Hx h state s Hs.
  destruct (Hx h state s Hs) as (r & h' & Hrun & Hsub & Hs' & Hview).
  unfold lengthy. destruct r as [[l |] |]; cbn [viewCompletion viewOption] in Hview.
  - apply fmap_Some in Hview as (p & Hp & ->).
    apply fmap_Some in Hp as (items' & Hitems' & ->).
    destruct (Hread h' l items' Hitems') as (c & items & Hc & Hitems & Hlength).
    exists (JS.Normal (JS.hasLength (Some items'))), h'.
    rewrite (bind_normal _ _ _ _ _ Hrun).
    rewrite (bind_normal _ _ _ _ _ (read_spec as_ _ _ _ _ Hc Hitems)).
    cbn [JS.lengthy]. rewrite <- Hlength.
    split; [reflexivity | split; [exact Hsub | split; [exact Hs' | reflexivity]]].
  - injection Hview as <-. exists (JS.Normal false), h'.
    rewrite (bind_normal _ _ _ _ _ Hrun).
    split; [reflexivity | split; [exact Hsub | split; [exact Hs' | reflexivity]]].
  - injection Hview as <-. exists JS.Throws, h'.
    rewrite (bind_throws _ _ _ _ Hrun).
    split; [reflexivity | split; [exact Hsub | split; [exact Hs' | reflexivity]]].
Qed.

(** [x || y] runs [y] on the heap [x] left, and only when [x] is false. *)
Lemma orElse_readOnly (x y : StateRef -> M bool) (vx vy : AppState -> JS.Completion bool) :
  ReadOnly x (fun _ b => Some b) vx ->
  ReadOnly y (fun _ b => Some b) vy ->
  ReadOnly (fun state => orElse (x state) (y state)) (fun _ b => Some b)
           (fun s => JS.orElse (vx s) (vy s)).
Proof.
  intros Hx Hy h state s Hs.
  destruct (Hx h state s Hs) as (rx & h1 & Hrunx & Hsubx & Hs1 & Hviewx).
  destruct (Hy h1 state s Hs1) as (ry & h2 & Hruny & Hsuby & Hs2 & Hviewy).
  unfold orElse. destruct rx as [[|] |]; cbn [viewCompletion] in Hviewx;
    injection Hviewx as <-; cbn [JS.orElse].
  - exists (JS.Normal true), h1. rewrite (bind_normal _ _ _ _ _ Hrunx).
    split; [reflexivity | split; [exact Hsubx | split; [exact Hs1 | reflexivity]]].
  - exists ry, h2. rewrite (bind_normal _ _ _ _ _ Hrunx).
    split; [exact Hruny | split; [etransitivity; eassumption | split; assumption]].
  - exists JS.Throws, h1. rewrite (bind_throws _ _ _ _ Hrunx).
    split; [reflexivity | split; [exact Hsubx | split; [exact Hs1 | reflexivity]]].
Qed.

Lemma frames_readable (h : Heap) (l : Loc) (items' : list Frame.t) :
  viewFrames h l = Some items' ->
  exists c items,
    h !! l = Some c /\ asFrames c = Some items
    /\ match items with [] => false | _ :: _ => true end = JS.hasLength (Some items').
Proof.
  unfold viewFrames. intros Hv. apply bind_Some in Hv as (c & Hc & Hv).
  exists c, items'. split; [exact Hc | split; [exact Hv | reflexivity]].
Qed.

Lemma hitboxes_readable (h : Heap) (l : Loc) (items' : list Hitbox.t) :
  viewHitboxes h l = Some items' ->
  exists c items,
    h !! l = Some c /\ asHitboxes c = Some items
    /\ match items with [] => false | _ :: _ => true end = JS.hasLength (Some items').
Proof.
  unfold viewHitboxes. intros Hv. apply bind_Some in Hv as (c & Hc & Hv).
  exists c, items'. split; [exact Hc | split; [exact Hv | reflexivity]].
Qed.

Lemma animations_readable (h : Heap) (l : Loc) (items' : list Animation.t) :
  viewAnimations h l = Some items' ->
  exists c items,
    h !! l = Some c /\ asAnimations c = Some items
    /\ match items with [] => false | _ :: _ => true end = JS.hasLength (Some items').
Proof.
  unfold viewAnimations. intros Hv. apply bind_Some in Hv as (c & Hc & Hv).
  apply bind_Some in Hv as (items & Hitems & Hv).
  exists c, items. split; [exact Hc | split; [exact Hitems |]].
  exact (mapM_nonempty _ _ _ Hv).
Qed.

Lemma keyframes_readable (h : Heap) (l : Loc) (items' : list Keyframe.t) :
  viewKeyframes h l = Some items' ->
  exists c items,
    h !! l = Some c /\ asKeyframes c = Some items
    /\ match items with [] => false | _ :: _ => true end = JS.hasLength (Some items').
Proof.
  unfold viewKeyframes. intros Hv. apply bind_Some in Hv as (c & Hc & Hv).
  apply bind_Some in Hv as (items & Hitems & Hv).
  exists c, items. split; [exact Hc | split; [exact Hitems |]].
  exact (mapM_nonempty _ _ _ Hv).
Qed.

Lemma canCut_readOnly : ReadOnly canCut (fun _ b => Some b) Getters.canCut.
Proof.
  exact (orElse_readOnly _ _ _ _
           (orElse_readOnly _ _ _ _
              (lengthy_readOnly asAnimations viewAnimations _ _
                 animations_readable selectedAnimations_readOnly)
              (lengthy_readOnly asKeyframes viewKeyframes _ _
                 keyframes_readable selectedKeyframes_readOnly))
           (lengthy_readOnly asHitboxes viewHitboxes _ _
              hitboxes_readable selectedHitboxes_readOnly)).
Qed.

Lemma canCopy_readOnly : ReadOnly canCopy (fun _ b => Some b) Getters.canCopy.
Proof.
  exact (orElse_readOnly _ _ _ _
           (orElse_readOnly _ _ _ _
              (orElse_readOnly _ _ _ _
                 (lengthy_readOnly asFrames viewFrames _ _
                    frames_readable selectedFrames_readOnly)
                 (lengthy_readOnly asAnimations viewAnimations _ _
                    animations_readable selectedAnimations_readOnly))
              (lengthy_readOnly asKeyframes viewKeyframes _ _
                 keyframes_readable selectedKeyframes_readOnly))
           (lengthy_readOnly asHitboxes viewHitboxes _ _
              hitboxes_readable selectedHitboxes_readOnly)).
Qed.


(** C8. Evaluating any of the eleven getters leaves the state
    unchanged, and what it returns is a function of the state alone: run
    on any heap that holds a state [s], the getter ends with the value
    (or the [TypeError]) that the corresponding function of [s] gives,
    every array that existed before is as it was, and the heap still
    holds [s].  In particular [sortedAnimations] sorts the array that
    [Object.values] created, not a stored one. *)
Theorem getters_leave_the_state_unchanged :
  ReadOnly currentDocument (fun h => viewOption (viewDocument h))
           (fun s => JS.Normal (Getters.currentDocument s))
  /\ ReadOnly sortedAnimations (fun h => viewOption (viewAnimations h))
              (fun s => JS.Normal (Getters.sortedAnimations s))
  /\ ReadOnly currentAnimation (fun h => viewProperty (viewAnimation h))
              (fun s => JS.Normal (Getters.currentAnimation s))
  /\ ReadOnly currentSequence (fun h => viewProperty (viewSequence h))
              Getters.currentSequence
  /\ ReadOnly currentKeyframe (fun h => viewOption (viewKeyframe h))
              Getters.currentKeyframe
  /\ ReadOnly selectedFrames (fun h => viewOption (viewFrames h))
              (fun s => JS.Normal (Getters.selectedFrames s))
  /\ ReadOnly selectedAnimations (fun h => viewOption (viewAnimations h))
              (fun s => JS.Normal (Getters.selectedAnimations s))
  /\ ReadOnly selectedHitboxes (fun h => viewOption (viewHitboxes h))
              Getters.selectedHitboxes
  /\ ReadOnly selectedKeyframes (fun h => viewOption (viewKeyframes h))
              Getters.selectedKeyframes
  /\ ReadOnly canCut (fun _ b => Some b) Getters.canCut
  /\ ReadOnly canCopy (fun _ b => Some b) Getters.canCopy.
Proof.
  split; [exact currentDocument_readOnly |].
  split; [exact sortedAnimations_readOnly |].
  split; [exact currentAnimation_readOnly |].
  split; [exact currentSequence_readOnly |].
  split; [exact currentKeyframe_readOnly |].
  split; [exact selectedFrames_readOnly |].
  split; [exact selectedAnimations_readOnly |].
  split; [exact selectedHitboxes_readOnly |].
  split; [exact selectedKeyframes_readOnly |].
  split; [exact canCut_readOnly | exact canCopy_readOnly].
Qed.

(** [ReadOnly] tells a getter that reorders a stored array: one that
    sorted the keyframes of the current sequence in place, selected ones
    first, would not satisfy it. *)
Lemma sorting_a_stored_array_is_not_readOnly :
  ~ ReadOnly
      (fun state =>
         s ← currentSequence state;
         match s with
         | JS.Own s =>
             sort asKeyframes Keyframes (skeyframes s)
               (fun a b =>
                  if kselected a then (if kselected b then 0 else -1)
                  else if kselected b then 1 else 0)
         | _ => ret tt
         end)
      (fun _ _ => Some tt) (fun _ => JS.Normal tt).
Proof.
  intros Hro.
  assert (Hs : snapshot Sample.heap Sample.root = Some Sample.editing)
    by (vm_compute; reflexivity).
  destruct (Hro Sample.heap Sample.root Sample.editing Hs) as (r & h' & Hrun & Hsub & _).
  assert (Hold : Sample.heap !! 3%nat
                 = Some (Keyframes
                           [Sample.keyRef "n0.png" 5%nat false;
                            Sample.keyRef "n1.png" 6%nat true]))
    by (vm_compute; reflexivity).
  pose proof (heap_weaken _ _ _ _ Hsub Hold) as Hnew.
  vm_compute in Hrun. injection Hrun as _ <-.
  vm_compute in Hnew. discriminate Hnew.
Qed.

End HeapGetters.

(** On the sample heap, [sortedAnimations] returns a new array holding
    attack, Jump, Walk, and the heap still holds the state with its
    animations as they were. *)
Lemma getters_leave_the_state_unchanged_sample :
  Evaluation.snapshot Sample.heap Sample.root = Some Sample.editing
  /\ exists r h',
      @Evaluation.sortedAnimations JS.plain Sample.root Sample.heap = Some (r, h')
      /\ Sample.heap ⊆ h'
      /\ Evaluation.snapshot h' Sample.root = Some Sample.editing
      /\ Evaluation.viewCompletion
           (Evaluation.viewOption (Evaluation.viewAnimations h')) r
         = Some (JS.Normal (Some [Sample.attack; Sample.jump; Sample.walk])).
Proof.
  assert (Hs : Evaluation.snapshot Sample.heap Sample.root = Some Sample.editing)
    by (vm_compute; reflexivity).
  split; [exact Hs |].
  exact (proj1 (proj2 (@getters_leave_the_state_unchanged JS.plain))
           Sample.heap Sample.root Sample.editing Hs).
Defined.



(** ** Selection views *)

Lemma hasLength_nonEmpty {A} (x : option (list A)) :
  JS.hasLength x = true <-> Spec.nonEmpty x.
Proof.
  split.
  - destruct x as [[| y l] |]; try discriminate. intros _. exists y, l. reflexivity.
  - intros (y & l & ->). reflexivity.
Qed.

Lemma hasLength_empty {A} (x : option (list A)) :
  ~ Spec.nonEmpty x -> JS.hasLength x = false.
Proof.
  intros Hx. destruct (JS.hasLength x) eqn:E; [| reflexivity].
  apply hasLength_nonEmpty in E. contradiction.
Qed.

Lemma lengthy_true {A} (c : JS.Completion (option (list A))) :
  JS.lengthy c = JS.Normal true <-> Spec.yieldsNonEmpty c.
Proof.
  split.
  - destruct c as [[[| y l] |] |]; try discriminate. intros _. exists y, l. reflexivity.
  - intros (y & l & ->). reflexivity.
Qed.

Lemma lengthy_of_empty {A} (c : JS.Completion (option (list A))) :
  Spec.yieldsEmpty c -> JS.lengthy c = JS.Normal false.
Proof. intros [-> | ->]; reflexivity. Qed.

(** Hitboxes are only returned below an animation of the sheet, for
    which [selectedKeyframes] returns too. *)
Lemma selectedHitboxes_needs_animation `{JS.Host} (state : AppState) (l : list Hitbox.t) :
  Getters.selectedHitboxes state = JS.Normal (Some l) ->
  exists ks, Getters.selectedKeyframes state = JS.Normal (Some ks).
Proof.
  unfold Getters.selectedHitboxes, Getters.currentKeyframe, Getters.currentSequence,
    Getters.selectedKeyframes.
  destruct (Getters.currentAnimation state) as [a | k |].
  - intros _. eexists. reflexivity.
  - destruct (Getters.currentDirection state); [discriminate |].
    cbn. discriminate.
  - cbn. discriminate.
Qed.

Section Selection.

Context `{JS.Host}.

(** C4. [canCut] is true exactly when at least one of
    selectedAnimations, selectedKeyframes, selectedHitboxes is non-empty;
    so in a state where selectedFrames is non-empty and each of those
    three is empty (an empty list or null), [canCut] is false. *)
Theorem canCut_iff_cuttable_selection (state : AppState) :
  (Getters.canCut state = JS.Normal true <->
     Spec.nonEmpty (Getters.selectedAnimations state)
     \/ Spec.yieldsNonEmpty (Getters.selectedKeyframes state)
     \/ Spec.yieldsNonEmpty (Getters.selectedHitboxes state))
  /\ (Spec.nonEmpty (Getters.selectedFrames state) ->
      ~ Spec.nonEmpty (Getters.selectedAnimations state) ->
      Spec.yieldsEmpty (Getters.selectedKeyframes state) ->
      Spec.yieldsEmpty (Getters.selectedHitboxes state) ->
      Getters.canCut state = JS.Normal false).
Proof.
  unfold Getters.canCut. split.
  - rewrite <- hasLength_nonEmpty, <- !lengthy_true. split.
    + destruct (JS.hasLength (Getters.selectedAnimations state)); [auto |].
      cbn [JS.orElse].
      destruct (JS.lengthy (Getters.selectedKeyframes state)) as [[|] |];
        cbn [JS.orElse]; [auto | auto | discriminate].
    + intros [Ha | [Hk | Hh]].
      * rewrite Ha. reflexivity.
      * rewrite Hk. destruct (JS.hasLength _); reflexivity.
      * destruct (JS.hasLength _); [reflexivity |]. cbn [JS.orElse].
        apply lengthy_true in Hh as Hsome. destruct Hsome as (x & rest & Hsome).
        destruct (selectedHitboxes_needs_animation state _ Hsome) as (ks & ->).
        cbn [JS.lengthy JS.orElse]. destruct (JS.hasLength (Some ks)); [reflexivity | exact Hh].
  - intros _ Ha Hk Hh.
    rewrite (hasLength_empty _ Ha), (lengthy_of_empty _ Hk), (lengthy_of_empty _ Hh).
    reflexivity.
Qed.

End Selection.

Lemma canCut_frames_only_sample :
  Spec.nonEmpty (Getters.selectedFrames Sample.framesOnly)
  /\ @Getters.canCut JS.plain Sample.framesOnly = JS.Normal false
  /\ @Getters.canCopy JS.plain Sample.framesOnly = JS.Normal true.
Proof.
  assert (Hframes : Spec.nonEmpty (Getters.selectedFrames Sample.framesOnly))
    by (exists (Frame.mk "a.png" true), []; reflexivity).
  split; [exact Hframes | split; [| reflexivity]].
  apply (proj2 (@canCut_iff_cuttable_selection JS.plain Sample.framesOnly) Hframes).
  - intros (x & rest & Hsel). vm_compute in Hsel. discriminate Hsel.
  - right. reflexivity.
  - right. reflexivity.
Defined.

(** Where the current animation name is that of an inherited member,
    [canCut] throws, being neither true nor false; [canCopy] stops at the
    selected frame and is true. *)
Example canCut_on_inherited_name :
  @Getters.canCut JS.plain Sample.dangling = JS.Throws
  /\ @Getters.canCopy JS.plain Sample.dangling = JS.Normal true.
Proof. split; reflexivity. Qed.





(** The current sequence of the sample is "North"; the selected keyframe
    of "South" is listed all the same, after the one of "North". *)
Example selectedKeyframes_on_sample :
  @Getters.selectedKeyframes JS.plain Sample.editing
  = JS.Normal (Some [Sample.key "n1.png" true; Sample.key "s0.png" true])
  /\ @Getters.currentSequence JS.plain Sample.editing
     = JS.Normal (JS.Own (Sequence.mk [Sample.key "n0.png" false; Sample.key "n1.png" true])).
Proof. split; reflexivity. Qed.

(** C10. A [currentKeyframeIndex] of 0 counts as present: when there is a
    current sequence with at least one keyframe and the current
    document's index is 0, [currentKeyframe] is the first keyframe of
    that sequence. *)
Theorem currentKeyframe_at_index_zero `{JS.Host}
        (state : AppState) (d : Document.t) (s : Sequence.t)
        (first : Keyframe.t) (others : list Keyframe.t) :
  Getters.currentDocument state = Some d ->
  Getters.currentSequence state = JS.Normal (JS.Own s) ->
  Sequence.keyframes s = first :: others ->
  Document.currentKeyframeIndex d = Some 0 ->
  Getters.currentKeyframe state = JS.Normal (Some first).
Proof.
  intros Hd Hs Hk Hi. unfold Getters.currentKeyframe, Getters.currentIndex.
  rewrite Hs, Hd, Hi, Hk. reflexivity.
Qed.

Lemma currentKeyframe_at_index_zero_sample :
  let d := Sample.hero [Frame.mk "n0.png" false] false in
  let s := Sequence.mk [Sample.key "n0.png" false; Sample.key "n1.png" true] in
  Getters.currentDocument Sample.editing = Some d
  /\ @Getters.currentSequence JS.plain Sample.editing = JS.Normal (JS.Own s)
  /\ Document.currentKeyframeIndex d = Some 0
  /\ @Getters.currentKeyframe JS.plain Sample.editing
     = JS.Normal (Some (Sample.key "n0.png" false)).
Proof.
  split; [reflexivity | split; [reflexivity | split; [reflexivity |]]].
  apply (@currentKeyframe_at_index_zero JS.plain Sample.editing
           (Sample.hero [Frame.mk "n0.png" false] false)
           (Sequence.mk [Sample.key "n0.png" false; Sample.key "n1.png" true])
           (Sample.key "n0.png" false) [Sample.key "n1.png" true]);
    reflexivity.
Defined.

(** ** Keyboard shortcuts *)

Section Shortcuts.

Import Keyboard.

(** The guard of lines 44-46. *)
Lemma onKeyDown_input (state : AppState) (el : Element) (event : KeyboardEvent) :
  tagName el = "INPUT" -> onKeyDown state (Some el) event = Some nothing.
Proof. intros Htag. unfold onKeyDown. rewrite Htag. reflexivity. Qed.

(** Past the guard, an event without the control key reaches the second
    branch. *)
Lemma onKeyDown_plain (state : AppState) (el : Element) (event : KeyboardEvent) :
  tagName el <> "INPUT" ->
  ctrlKey event = false ->
  onKeyDown state (Some el) event
  = Some (withoutControl state (negb (tabIndex el =? -1)) event).
Proof.
  intros Htag Hctrl. unfold onKeyDown.
  apply String.eqb_neq in Htag. rewrite Htag, Hctrl. reflexivity.
Qed.

Lemma withoutControl_escape (state : AppState) (friendly : bool) (event : KeyboardEvent) :
  key event = "Escape" -> withoutControl state friendly event = onEscape state.
Proof. intros Hkey. unfold withoutControl. rewrite Hkey. reflexivity. Qed.

(** The chain of [else if]s picks the first rule of the priority list. *)
Lemma onEscape_first_match (state : AppState) :
  calls (onEscape state) = Spec.escapeDispatch state.
Proof.
  unfold onEscape, Spec.escapeDispatch, Spec.escapePriority.
  cbn [List.find fst snd].
  destruct (hasError state); [reflexivity |].
  destruct (ofCurrentDocument Document.wasCloseRequested state); [reflexivity |].
  destruct (ofCurrentDocument Document.framesBeingRelocated state); [reflexivity |].
  destruct (ofCurrentDocument Document.exportSettingsBeingEdited state); reflexivity.
Qed.

End Shortcuts.

(** C6, as the specification states it, fails while an [<input>] has
    focus: with an error showing, Escape dispatches nothing. *)
Lemma escape_in_text_field_is_dropped :
  ~ Spec.escapeResolves Sample.failedWhileClosing (Some Sample.textField)
      (Keyboard.press "Escape").
Proof.
  intros Hclaim.
  specialize (Hclaim (conj eq_refl (conj eq_refl eq_refl)) eq_refl).
  vm_compute in Hclaim. discriminate Hclaim.
Qed.

(** C6 (amended). For every unmodified Escape key event that occurs
    while an element other than an [<input>] has focus, the handler
    dispatches exactly the command of the first matching condition in the
    order: error showing (acknowledge it), close requested (cancel the
    exit), frames being relocated (cancel the relocation), export settings
    being edited (cancel the export); it dispatches nothing when none
    holds, and only [acknowledgeError] when an error is showing and a close
    was requested at the same time. *)
Theorem escape_resolves_by_priority
        (state : AppState) (el : Keyboard.Element) (event : Keyboard.KeyboardEvent) :
  Keyboard.tagName el <> "INPUT" ->
  Keyboard.unmodified event ->
  Keyboard.key event = "Escape" ->
  let dispatched :=
    option_map Keyboard.calls (Keyboard.onKeyDown state (Some el) event) in
  dispatched = Some (Spec.escapeDispatch state)
  /\ (Keyboard.hasError state = true ->
      Keyboard.ofCurrentDocument Document.wasCloseRequested state = true ->
      dispatched = Some [Keyboard.acknowledgeError])
  /\ (Keyboard.hasError state = false ->
      Keyboard.ofCurrentDocument Document.wasCloseRequested state = false ->
      Keyboard.ofCurrentDocument Document.framesBeingRelocated state = false ->
      Keyboard.ofCurrentDocument Document.exportSettingsBeingEdited state = false ->
      dispatched = Some []).
Proof.
  intros Htag (Hctrl & _ & _) Hkey dispatched. subst dispatched.
  rewrite (onKeyDown_plain _ _ _ Htag Hctrl), (withoutControl_escape _ _ _ Hkey).
  cbn [option_map]. rewrite onEscape_first_match.
  split; [reflexivity | split].
  - intros He _. unfold Spec.escapeDispatch, Spec.escapePriority.
    cbn [List.find fst snd]. rewrite He. reflexivity.
  - intros He Hc Hf Hx. unfold Spec.escapeDispatch, Spec.escapePriority.
    cbn [List.find fst snd]. rewrite He, Hc, Hf, Hx. reflexivity.
Qed.

Lemma escape_resolves_by_priority_sample :
  Keyboard.tagName Sample.canvas <> "INPUT"
  /\ Keyboard.unmodified (Keyboard.press "Escape")
  /\ option_map Keyboard.calls
       (Keyboard.onKeyDown Sample.failedWhileClosing (Some Sample.canvas)
          (Keyboard.press "Escape"))
     = Some [Keyboard.acknowledgeError].
Proof.
  assert (Htag : Keyboard.tagName Sample.canvas <> "INPUT") by discriminate.
  assert (Hmod : Keyboard.unmodified (Keyboard.press "Escape"))
    by (repeat split; reflexivity).
  split; [exact Htag | split; [exact Hmod |]].
  apply (proj1 (proj2 (escape_resolves_by_priority Sample.failedWhileClosing
                         Sample.canvas (Keyboard.press "Escape")
                         Htag Hmod eq_refl)));
    reflexivity.
Defined.


(** Case analysis along the handler's chain of key tests; a test that
    succeeds fixes the key. *)
Ltac by_key :=
  repeat match goal with
         | |- context [String.eqb (Keyboard.key ?e) ?lit] =>
             let E := fresh "Hkey" in
             destruct (String.eqb (Keyboard.key e) lit) eqn:E;
             [apply String.eqb_eq in E; try rewrite E in * |]
         end.

Ltac by_flag :=
  repeat match goal with
         | |- context [if ?b then _ else _] => destruct b
         end.






(** C9. Whenever the focused element is an INPUT element, the keydown
    handler returns at once: it dispatches no backend command, for every
    key event, whatever the key and the modifiers. *)
Theorem input_focus_silences_shortcuts
        (state : AppState) (el : Keyboard.Element) (event : Keyboard.KeyboardEvent) :
  Keyboard.tagName el = "INPUT" ->
  option_map Keyboard.calls (Keyboard.onKeyDown state (Some el) event) = Some [].
Proof.
  intros Htag. rewrite (onKeyDown_input _ _ _ Htag). reflexivity.
Qed.

Lemma input_focus_silences_undo_delete_escape :
  Keyboard.tagName Sample.textField = "INPUT"
  /\ List.map
       (fun event =>
          option_map Keyboard.calls
            (Keyboard.onKeyDown Sample.failedWhileClosing (Some Sample.textField) event))
       [ {| Keyboard.key := "z"; Keyboard.ctrlKey := true;
            Keyboard.altKey := false; Keyboard.shiftKey := false |};
         Keyboard.press "Delete";
         Keyboard.press "Escape" ]
     = [Some []; Some []; Some []].
Proof.
  split; [reflexivity |].
  cbn [List.map].
  rewrite !(input_focus_silences_shortcuts Sample.failedWhileClosing Sample.textField)
    by reflexivity.
  reflexivity.
Defined.

(** ** The command gateway *)

Section GatewayFacts.

Context {State Patch : Type} `{PatchAction State Patch}.

Import Gateway.

Lemma applications_app (tr1 tr2 : list (@Effect State Patch)) :
  applications (tr1 ++ tr2) = applications tr1 ++ applications tr2.
Proof.
  induction tr1 as [| e tr1 IH]; [reflexivity |].
  destruct e; cbn [applications app]; rewrite ?IH; reflexivity.
Qed.

(** One event reaches the store exactly when it is a resolution. *)
Lemma step_applications (g g' : @t State) (e : @Event State Patch) (out : list (@Effect State Patch)) :
  step g e = Some (g', out) -> applications out = resolutions [e].
Proof.
  destruct e as [c | id r | id]; cbn [step resolutions].
  - intros [= <- <-]. reflexivity.
  - destruct (pending g !! id) as [c |]; [| discriminate].
    destruct r as [p | s].
    + destruct (Api.assignsState c); [discriminate |].
      destruct (patch (store g) p) as [s' [failure |]];
        intros [= <- <-]; reflexivity.
    + destruct (Api.assignsState c); [| discriminate].
      intros [= <- <-]. reflexivity.
  - destruct (pending g !! id); [| discriminate].
    intros [= <- <-]. reflexivity.
Qed.

(** Responses reach the store in the order in which they resolve. *)
Lemma run_applications (es : list (@Event State Patch)) :
  forall (g g' : @t State) (tr : list (@Effect State Patch)),
    run g es = Some (g', tr) -> applications tr = resolutions es.
Proof.
  induction es as [| e es IH]; intros g g' tr; cbn [run].
  - intros [= <- <-]. reflexivity.
  - destruct (step g e) as [[g1 out] |] eqn:Hstep; [| discriminate].
    destruct (run g1 es) as [[g2 out'] |] eqn:Hrun; [| discriminate].
    intros [= <- <-]. rewrite applications_app.
    rewrite (step_applications _ _ _ _ Hstep), (IH _ _ _ Hrun).
    destruct e; reflexivity.
Qed.

(** A round-trip that has settled cannot resolve again. *)
Lemma settled_never_resolves (id : nat) (es : list (@Event State Patch)) :
  forall (g g' : @t State) (tr : list (@Effect State Patch)),
    pending g !! id = None ->
    (id < nextId g)%nat ->
    run g es = Some (g', tr) ->
    List.filter (Nat.eqb id) (resolutions es) = [].
Proof.
  induction es as [| e es IH]; intros g g' tr Hnone Hlt; cbn [run]; [reflexivity |].
  destruct (step g e) as [[g1 out] |] eqn:Hstep; [| discriminate].
  destruct (run g1 es) as [[g2 out'] |] eqn:Hrun; [| discriminate].
  intros _.
  assert (Hkeep : pending g1 !! id = None /\ (id < nextId g1)%nat
                  /\ List.filter (Nat.eqb id) (resolutions [e]) = []).
  { destruct e as [c | id' r | id']; cbn [step] in Hstep.
    - injection Hstep as <- _. cbn [pending nextId resolutions List.filter].
      rewrite lookup_insert_ne by lia. repeat split; [assumption | lia].
    - destruct (pending g !! id') as [c |] eqn:Hid'; [| discriminate].
      assert (Hne : id' <> id) by congruence.
      assert (Hg1 : pending g1 = delete id' (pending g) /\ nextId g1 = nextId g).
      { destruct r as [p | s]; destruct (Api.assignsState c); try discriminate.
        - destruct (patch (store g) p) as [s' failure].
          injection Hstep as <- _. split; reflexivity.
        - injection Hstep as <- _. split; reflexivity. }
      destruct Hg1 as [-> ->]. rewrite lookup_delete_ne by assumption.
      cbn [resolutions List.filter].
      destruct (Nat.eqb_spec id id'); [congruence |].
      repeat split; assumption.
    - destruct (pending g !! id') as [c |] eqn:Hid'; [| discriminate].
      assert (Hne : id' <> id) by congruence.
      injection Hstep as <- _. cbn [pending nextId resolutions List.filter].
      rewrite lookup_delete_ne by assumption. repeat split; assumption. }
  destruct Hkeep as (Hnone1 & Hlt1 & Hhere).
  change (e :: es) with ([e] ++ es).
  assert (Hres : resolutions ([e] ++ es) = resolutions [e] ++ resolutions es)
    by (destruct e; reflexivity).
  rewrite Hres, List.filter_app, Hhere, (IH _ _ _ Hnone1 Hlt1 Hrun). reflexivity.
Qed.

Lemma run_cons (g g1 g2 : @t State) (e : @Event State Patch)
      (es : list (@Event State Patch)) (out out' : list (@Effect State Patch)) :
  step g e = Some (g1, out) ->
  run g1 es = Some (g2, out') ->
  run g (e :: es) = Some (g2, out ++ out').
Proof. intros Hstep Hrun. cbn [run]. rewrite Hstep, Hrun. reflexivity. Qed.

(** The continuation of a suspended patch command: the patch goes to
    the store, once. *)
Lemma step_fulfil_patch (g : @t State) (id : nat) (c : Api.Command) (p : Patch) :
  pending g !! id = Some c ->
  Api.assignsState c = false ->
  exists out,
    step g (Fulfil id (PatchResponse p))
    = Some (mk (fst (patch (store g) p)) (delete id (pending g)) (nextId g), out)
    /\ applications out = [id].
Proof.
  intros Hid Hc. cbn [step]. rewrite Hid, Hc.
  destruct (patch (store g) p) as [s' [failure |]]; eexists; split; reflexivity.
Qed.

(** The continuation of a suspended [getState]: the snapshot is
    assigned onto the state, once. *)
Lemma step_fulfil_snapshot (g : @t State) (id : nat) (c : Api.Command) (s : State) :
  pending g !! id = Some c ->
  Api.assignsState c = true ->
  step g (Fulfil id (@Snapshot State Patch s))
  = Some (mk (assign (store g) s) (delete id (pending g)) (nextId g), [Assigned id s]).
Proof. intros Hid Hc. cbn [step]. rewrite Hid, Hc. reflexivity. Qed.

(** C1 (amended). For every pair of patch commands A and B issued in
    that order without awaiting A's resolution, each patch is applied to
    the store when its own response resolves: A's patch is applied before
    B's when A's response resolves first, and B's patch is applied before
    A's when B's response resolves first. *)
Theorem patches_land_in_arrival_order
        (g : @t State) (a b : Api.Command) (pa pb : Patch) :
  Api.assignsState a = false ->
  Api.assignsState b = false ->
  let ida := nextId g in
  let idb := S ida in
  (exists g' tr,
      run g [Call a; Call b; Fulfil ida (PatchResponse pa); Fulfil idb (PatchResponse pb)]
      = Some (g', tr)
      /\ applications tr = [ida; idb]
      /\ store g' = fst (patch (fst (patch (store g) pa)) pb))
  /\ (exists g' tr,
         run g [Call a; Call b; Fulfil idb (PatchResponse pb); Fulfil ida (PatchResponse pa)]
         = Some (g', tr)
         /\ applications tr = [idb; ida]
         /\ store g' = fst (patch (fst (patch (store g) pb)) pa)).
Proof.
  intros Ha Hb ida idb.
  set (g2 := mk (store g) (<[idb := b]> (<[ida := a]> (pending g))) (S idb)).
  assert (Hcalls : forall es g' tr,
             run g2 es = Some (g', tr) ->
             run g (Call a :: Call b :: es)
             = Some (g', [Invoked ida a] ++ [Invoked idb b] ++ tr)).
  { intros es g' tr Hrun.
    eapply run_cons; [reflexivity |]. eapply run_cons; [reflexivity | exact Hrun]. }
  assert (Hpa : pending g2 !! ida = Some a).
  { cbn [g2 pending]. rewrite lookup_insert_ne by (subst idb; lia).
    apply lookup_insert_eq. }
  assert (Hpb : pending g2 !! idb = Some b) by apply lookup_insert_eq.
  split.
  - destruct (step_fulfil_patch g2 ida a pa Hpa Ha) as (out1 & Hs1 & Ho1).
    set (g3 := mk (fst (patch (store g2) pa)) (delete ida (pending g2)) (nextId g2)) in *.
    assert (Hpb3 : pending g3 !! idb = Some b).
    { cbn [g3 pending]. rewrite lookup_delete_ne by (subst idb; lia). exact Hpb. }
    destruct (step_fulfil_patch g3 idb b pb Hpb3 Hb) as (out2 & Hs2 & Ho2).
    eexists _, _. split; [| split].
    + apply Hcalls. eapply run_cons; [exact Hs1 |].
      eapply run_cons; [exact Hs2 | reflexivity].
    + cbn [applications app]. rewrite !applications_app, Ho1, Ho2. reflexivity.
    + reflexivity.
  - destruct (step_fulfil_patch g2 idb b pb Hpb Hb) as (out1 & Hs1 & Ho1).
    set (g3 := mk (fst (patch (store g2) pb)) (delete idb (pending g2)) (nextId g2)) in *.
    assert (Hpa3 : pending g3 !! ida = Some a).
    { cbn [g3 pending]. rewrite lookup_delete_ne by (subst idb; lia). exact Hpa. }
    destruct (step_fulfil_patch g3 ida a pa Hpa3 Ha) as (out2 & Hs2 & Ho2).
    eexists _, _. split; [| split].
    + apply Hcalls. eapply run_cons; [exact Hs1 |].
      eapply run_cons; [exact Hs2 | reflexivity].
    + cbn [applications app]. rewrite !applications_app, Ho1, Ho2. reflexivity.
    + reflexivity.
Qed.

(** C3 (amended). For every command invocation whose backend round-trip
    rejects, no patch is applied to the store and the state is unchanged
    by that invocation, its error slot included: the rejection leaves
    through the promise of the wrapper.  A round-trip that succeeds hands
    its response to the store exactly once: the state afterwards is the
    state before with the returned patch applied (with the snapshot
    assigned onto it, for [getState]), and no later event applies that
    response again. *)
Theorem rejection_applies_nothing_success_applies_once
        (g : @t State) (c : Api.Command) :
  let id := nextId g in
  (exists g',
      run g [Call c; Reject id] = Some (g', [Invoked id c; Thrown id])
      /\ store g' = store g)
  /\ (forall r : @Response State Patch,
         answers c r = true ->
         exists g' tr,
           run g [Call c; Fulfil id r] = Some (g', tr)
           /\ store g' = match r with
                         | PatchResponse p => fst (patch (store g) p)
                         | Snapshot s => assign (store g) s
                         end
           /\ timesApplied id tr = 1%nat
           /\ forall es g'' tr',
               run g' es = Some (g'', tr') -> timesApplied id tr' = 0%nat).
Proof.
  intros id.
  set (g1 := mk (store g) (<[id := c]> (pending g)) (S id)).
  assert (Hc : pending g1 !! id = Some c) by apply lookup_insert_eq.
  split.
  - exists (mk (store g) (delete id (pending g1)) (S id)).
    split; [| reflexivity].
    cbn [run step]. fold id. fold g1. rewrite Hc. reflexivity.
  - intros r Hr.
    assert (Hstep : exists s out,
               step g1 (Fulfil id r) = Some (mk s (delete id (pending g1)) (S id), out)
               /\ applications out = [id]
               /\ s = match r with
                      | PatchResponse p => fst (patch (store g) p)
                      | Snapshot s => assign (store g) s
                      end).
    { destruct r as [p | s]; cbn [answers] in Hr.
      - apply negb_true_iff in Hr.
        destruct (step_fulfil_patch g1 id c p Hc Hr) as (out & Hs & Ho).
        eexists _, out. split; [exact Hs | split; [exact Ho | reflexivity]].
      - exists (assign (store g) s), [Assigned id s].
        split; [apply (step_fulfil_snapshot g1 id c s Hc Hr) | split; reflexivity]. }
    destruct Hstep as (s & out & Hs & Ho & Hstore).
    eexists _, _. split; [| split; [| split]].
    + eapply run_cons; [reflexivity |]. eapply run_cons; [exact Hs | reflexivity].
    + exact Hstore.
    + unfold timesApplied. cbn [applications app].
      rewrite !applications_app, Ho. cbn [applications app List.filter].
      rewrite Nat.eqb_refl. reflexivity.
    + intros es g'' tr' Hrun. unfold timesApplied.
      rewrite (run_applications _ _ _ _ Hrun).
      rewrite (settled_never_resolves id es
                 (mk s (delete id (pending g1)) (S id)) g'' tr'
                 (lookup_delete_eq _ _) (Nat.lt_succ_diag_r id) Hrun).
      reflexivity.
Qed.

End GatewayFacts.

(** C1, as the specification states it, fails: [undo] and [redo] are
    issued in that order, the response of [redo] resolves first, and its
    patch reaches the store first. *)
Lemma later_command_can_land_first :
  ~ Spec.issuanceOrder Sample.idle Api.undo Api.redo
      (Sample.focused "a.tiger")
      (Sample.focused "b.tiger").
Proof.
  intros Hclaim.
  destruct (Gateway.run Sample.idle
              ([Gateway.Call Api.undo; Gateway.Call Api.redo]
               ++ [Gateway.Fulfil 1 (Sample.focused "b.tiger");
                   Gateway.Fulfil 0 (Sample.focused "a.tiger")]))
    as [[g' tr] |] eqn:Hrun; [| vm_compute in Hrun; discriminate Hrun].
  specialize (Hclaim _ g' tr (or_intror eq_refl) Hrun).
  vm_compute in Hrun. injection Hrun as _ <-.
  vm_compute in Hclaim. discriminate Hclaim.
Qed.

(** What the store holds at the end of that run: the value written by
    the command issued first. *)
Example later_command_is_overwritten :
  option_map (fun r => Json.child (Gateway.store (fst r)) "currentDocumentPath")
    (Gateway.run Sample.idle
       [Gateway.Call Api.undo; Gateway.Call Api.redo;
        Gateway.Fulfil 1 (Sample.focused "b.tiger");
        Gateway.Fulfil 0 (Sample.focused "a.tiger")])
  = Some (Some (Json.Str "a.tiger")).
Proof. vm_compute. reflexivity. Qed.

Lemma patches_land_in_arrival_order_sample :
  Api.assignsState Api.undo = false
  /\ Api.assignsState Api.redo = false
  /\ exists g' tr,
      Gateway.run Sample.idle
        [Gateway.Call Api.undo; Gateway.Call Api.redo;
         Gateway.Fulfil 1 (Sample.focused "b.tiger");
         Gateway.Fulfil 0 (Sample.focused "a.tiger")]
      = Some (g', tr)
      /\ Gateway.applications tr = [1%nat; 0%nat]
      /\ Gateway.store g'
         = fst (patch (fst (patch Json.initialState (Sample.focus "b.tiger")))
                  (Sample.focus "a.tiger")).
Proof.
  split; [reflexivity | split; [reflexivity |]].
  exact (proj2 (patches_land_in_arrival_order Sample.idle Api.undo Api.redo
                  (Sample.focus "a.tiger") (Sample.focus "b.tiger")
                  eq_refl eq_refl)).
Defined.

(** C3, as the specification states it, fails: after a rejected [undo]
    the error slot of the state is as empty as before. *)
Lemma rejection_does_not_set_the_error :
  ~ Spec.rejectionSurfaces Sample.idle Api.undo.
Proof.
  intros Hclaim.
  destruct (Gateway.run Sample.idle [Gateway.Call Api.undo; Gateway.Reject 0])
    as [[g' tr] |] eqn:Hrun; [| vm_compute in Hrun; discriminate Hrun].
  destruct (Hclaim g' tr Hrun) as [_ Hset].
  vm_compute in Hrun. injection Hrun as <- _.
  vm_compute in Hset. discriminate Hset.
Qed.

Lemma rejection_and_success_sample :
  Gateway.answers Api.undo (Sample.focused "a.tiger") = true
  /\ (exists g',
         Gateway.run Sample.idle [Gateway.Call Api.undo; Gateway.Reject 0]
         = Some (g', [Gateway.Invoked 0 Api.undo; Gateway.Thrown 0])
         /\ Gateway.store g' = Json.initialState)
  /\ (exists g' tr,
         Gateway.run Sample.idle
           [Gateway.Call Api.undo;
            Gateway.Fulfil 0 (Sample.focused "a.tiger")]
         = Some (g', tr)
         /\ Json.child (Gateway.store g') "currentDocumentPath" = Some (Json.Str "a.tiger")
         /\ Gateway.timesApplied 0 tr = 1%nat
         /\ forall es g'' tr',
             Gateway.run g' es = Some (g'', tr') -> Gateway.timesApplied 0 tr' = 0%nat).
Proof.
  split; [reflexivity |].
  split.
  - exact (proj1 (rejection_applies_nothing_success_applies_once Sample.idle Api.undo)).
  - destruct (proj2 (rejection_applies_nothing_success_applies_once Sample.idle Api.undo)
                (Sample.focused "a.tiger") eq_refl)
      as (g' & tr & Hrun & Hstore & Honce & Hnever).
    exists g', tr. split; [exact Hrun |].
    split; [rewrite Hstore; reflexivity | split; [exact Honce | exact Hnever]].
Defined.

(* ===================================================================== *)
(** * Further properties of the getters *)
(* ===================================================================== *)

Lemma find_first {A} (p : A -> bool) (l : list A) (x : A) :
  List.find p l = Some x <->
  exists pre post,
    l = pre ++ x :: post /\ p x = true /\ forall y, In y pre -> p y = false.
Proof.
  induction l as [| z l IH]; cbn [List.find].
  - split; [discriminate |]. intros (pre & post & Hl & _). destruct pre; discriminate.
  - destruct (p z) eqn:Hz.
    + split.
      * intros [= ->]. exists [], l. repeat split; [assumption |]. intros y [].
      * intros (pre & post & Hl & Hx & Hpre). destruct pre as [| y pre].
        -- injection Hl as -> _. reflexivity.
        -- injection Hl as -> _. rewrite (Hpre y (or_introl eq_refl)) in Hz. discriminate.
    + rewrite IH. split.
      * intros (pre & post & -> & Hx & Hpre). exists (z :: pre), post.
        repeat split; [assumption |]. intros y [<- | Hy]; auto.
      * intros (pre & post & Hl & Hx & Hpre). destruct pre as [| y pre].
        -- injection Hl as -> _. congruence.
        -- injection Hl as -> ->. exists pre, post.
           repeat split; [assumption |]. intros y' Hy'. apply Hpre. right. exact Hy'.
Qed.

Lemma isCurrent_true (state : AppState) (d : Document.t) :
  Getters.isCurrent state d = true <-> currentDocumentPath state = Some (Document.path d).
Proof.
  unfold Getters.isCurrent. destruct (currentDocumentPath state) as [p |].
  - rewrite String.eqb_eq. split; [intros -> | intros [= ->]]; reflexivity.
  - split; discriminate.
Qed.

(** X1. [currentDocument] is the first document, in the order of the
    document list, whose path is [currentDocumentPath]; it is none exactly
    when no document has that path (in particular when the path is
    null). *)
Theorem currentDocument_is_first_with_path (state : AppState) :
  (forall d,
      Getters.currentDocument state = Some d <->
      exists earlier later,
        documents state = earlier ++ d :: later
        /\ currentDocumentPath state = Some (Document.path d)
        /\ forall d', In d' earlier -> Document.path d' <> Document.path d)
  /\ (Getters.currentDocument state = None <->
      forall d, In d (documents state) ->
                currentDocumentPath state <> Some (Document.path d)).
Proof.
  unfold Getters.currentDocument. split.
  - intros d. rewrite find_first. split.
    + intros (pre & post & Hl & Hd & Hpre). exists pre, post.
      apply isCurrent_true in Hd. repeat split; try assumption.
      intros d' Hd' Hsame. specialize (Hpre d' Hd').
      assert (Ht : Getters.isCurrent state d' = true)
        by (apply isCurrent_true; congruence).
      congruence.
    + intros (pre & post & Hl & Hd & Hpre). exists pre, post.
      repeat split; [assumption | apply isCurrent_true, Hd |].
      intros d' Hd'. destruct (Getters.isCurrent state d') eqn:Ht; [| reflexivity].
      apply isCurrent_true in Ht. exfalso. apply (Hpre d' Hd'). congruence.
  - split.
    + intros Hnone d Hd Hp. apply isCurrent_true in Hp.
      rewrite (List.find_none _ _ Hnone d Hd) in Hp. discriminate.
    + intros Hall. destruct (List.find _ _) as [d |] eqn:Hfind; [| reflexivity].
      apply List.find_some in Hfind as [Hin Ht]. apply isCurrent_true in Ht.
      destruct (Hall d Hin Ht).
Qed.

(** With two documents of the same path open, the first is current. *)
Example currentDocument_of_twins :
  option_map Document.wasCloseRequested (Getters.currentDocument View.twins) = Some false.
Proof. reflexivity. Qed.

Lemma currentDocument_is_first_with_path_sample :
  option_map Document.wasCloseRequested (Getters.currentDocument View.twins) = Some false
  /\ exists earlier later,
      documents View.twins = earlier ++ Sample.hero [] false :: later
      /\ currentDocumentPath View.twins = Some "hero.tiger"
      /\ forall d', In d' earlier -> Document.path d' <> "hero.tiger".
Proof.
  split; [reflexivity |].
  exact (proj1 (proj1 (currentDocument_is_first_with_path View.twins)
                  (Sample.hero [] false)) eq_refl).
Defined.


Lemma truthyString_some (s : option string) (n : string) :
  JS.truthyString s = Some n <-> s = Some n /\ n <> "".
Proof.
  destruct s as [[| c s'] |]; cbn [JS.truthyString].
  - split; [discriminate |]. intros [[= <-] Hne]. destruct Hne. reflexivity.
  - split.
    + intros [= <-]. split; [reflexivity | discriminate].
    + intros [[= <-] _]. reflexivity.
  - split; [discriminate |]. intros [Hs _]. discriminate.
Qed.

Lemma arrayGet_some {A} (a : list A) (i : Z) (x : A) :
  JS.arrayGet a i = Some x <-> 0 <= i /\ nth_error a (Z.to_nat i) = Some x.
Proof.
  unfold JS.arrayGet. destruct (Z.ltb_spec i 0).
  - split; [discriminate |]. intros [Hi _]. lia.
  - split; [intros Hx; split; [lia | exact Hx] | intros [_ Hx]; exact Hx].
Qed.


(** X2. Without a current document every other view is none, and
    neither cut nor copy is offered. *)
Theorem no_current_document_no_views `{JS.Host} (state : AppState) :
  Getters.currentDocument state = None ->
  Getters.sortedAnimations state = None
  /\ Getters.currentAnimation state = JS.Absent
  /\ Getters.currentSequence state = JS.Normal JS.Absent
  /\ Getters.currentKeyframe state = JS.Normal None
  /\ Getters.selectedFrames state = None
  /\ Getters.selectedAnimations state = None
  /\ Getters.selectedHitboxes state = JS.Normal None
  /\ Getters.selectedKeyframes state = JS.Normal None
  /\ Getters.canCut state = JS.Normal false
  /\ Getters.canCopy state = JS.Normal false.
Proof.
  intros Hd.
  assert (Hsa : Getters.sortedAnimations state = None)
    by (unfold Getters.sortedAnimations; rewrite Hd; reflexivity).
  assert (Ha : Getters.currentAnimation state = JS.Absent)
    by (unfold Getters.currentAnimation; rewrite Hd; reflexivity).
  assert (Hs : Getters.currentSequence state = JS.Normal JS.Absent)
    by (unfold Getters.currentSequence; rewrite Ha; reflexivity).
  assert (Hk : Getters.currentKeyframe state = JS.Normal None)
    by (unfold Getters.currentKeyframe; rewrite Hs; reflexivity).
  assert (Hf : Getters.selectedFrames state = None)
    by (unfold Getters.selectedFrames; rewrite Hd; reflexivity).
  assert (Hsela : Getters.selectedAnimations state = None)
    by (unfold Getters.selectedAnimations; rewrite Hsa; reflexivity).
  assert (Hselh : Getters.selectedHitboxes state = JS.Normal None)
    by (unfold Getters.selectedHitboxes; rewrite Hk; reflexivity).
  assert (Hselk : Getters.selectedKeyframes state = JS.Normal None)
    by (unfold Getters.selectedKeyframes; rewrite Ha; reflexivity).
  repeat (split; [assumption |]).
  unfold Getters.canCut, Getters.canCopy.
  rewrite Hf, Hsela, Hselh, Hselk. split; reflexivity.
Qed.

Lemma no_current_document_initially :
  Getters.currentDocument View.initial = None
  /\ Getters.selectedFrames View.initial = None
  /\ @Getters.canCopy JS.plain View.initial = JS.Normal false.
Proof.
  split; [reflexivity |].
  pose proof (@no_current_document_no_views JS.plain View.initial eq_refl) as Hviews.
  split; [apply Hviews | apply Hviews].
Defined.

Lemma lookup_own `{JS.Host} {A} (o : JS.Dict A) (k : string) (v : A) :
  JS.lookup o k = JS.Own v <-> JS.getProp o k = Some v.
Proof.
  unfold JS.lookup. destruct (JS.getProp o k) as [v' |].
  - split; intros [= ->]; reflexivity.
  - destruct (JS.inherited k); split; discriminate.
Qed.

(** X3. [currentKeyframe] is a keyframe [k] exactly when the whole chain
    resolves: there is a current document, its current animation name is
    a non-empty key of the sheet's animation map, its current direction
    is a non-empty key of that animation's sequence map, and its current
    keyframe index is a valid position of that sequence, where [k] is. *)
Theorem currentKeyframe_resolves_chain `{JS.Host} (state : AppState) (k : Keyframe.t) :
  Getters.currentKeyframe state = JS.Normal (Some k) <->
  exists d name a direction s i,
    Getters.currentDocument state = Some d
    /\ Document.currentAnimationName d = Some name /\ name <> ""
    /\ JS.getProp (Sheet.animations (Document.sheet d)) name = Some a
    /\ Document.currentSequenceDirection d = Some direction /\ direction <> ""
    /\ JS.getProp (Animation.sequences a) direction = Some s
    /\ Document.currentKeyframeIndex d = Some i
    /\ 0 <= i /\ nth_error (Sequence.keyframes s) (Z.to_nat i) = Some k.
Proof.
  unfold Getters.currentKeyframe, Getters.currentSequence, Getters.currentAnimation,
    Getters.currentDirection, Getters.currentIndex.
  split.
  - destruct (Getters.currentDocument state) as [d |]; [| discriminate].
    destruct (JS.truthyString (Document.currentAnimationName d)) as [name |] eqn:Hn;
      [| discriminate].
    destruct (JS.lookup _ name) as [a | m |] eqn:Ha.
    + apply lookup_own in Ha.
      destruct (JS.truthyString (Document.currentSequenceDirection d)) as [dir |] eqn:Hdir;
        [| discriminate].
      destruct (JS.lookup _ dir) as [s | m |] eqn:Hs.
      * apply lookup_own in Hs.
        destruct (Document.currentKeyframeIndex d) as [i |] eqn:Hi; [| discriminate].
        intros [= Hk]. apply arrayGet_some in Hk as [Hpos Hk].
        apply truthyString_some in Hn as [Hn Hne], Hdir as [Hdir Hdne].
        exists d, name, a, dir, s, i. repeat split; assumption.
      * destruct (Document.currentKeyframeIndex d); discriminate.
      * discriminate.
    + destruct (JS.truthyString (Document.currentSequenceDirection d)); discriminate.
    + discriminate.
  - intros (d & name & a & dir & s & i & -> & Hn & Hne & Ha & Hdir & Hdne & Hs & Hi
            & Hpos & Hk).
    rewrite (proj2 (truthyString_some _ _) (conj Hn Hne)).
    rewrite (proj2 (lookup_own _ _ _) Ha).
    rewrite (proj2 (truthyString_some _ _) (conj Hdir Hdne)).
    rewrite (proj2 (lookup_own _ _ _) Hs), Hi.
    f_equal. apply arrayGet_some. split; assumption.
Qed.

Lemma currentKeyframe_resolves_chain_sample :
  @Getters.currentKeyframe JS.plain Sample.editing
  = JS.Normal (Some (Sample.key "n0.png" false)).
Proof.
  apply (proj2 (@currentKeyframe_resolves_chain JS.plain Sample.editing
                  (Sample.key "n0.png" false))).
  exists (Sample.hero [Frame.mk "n0.png" false] false), "Walk", Sample.walk, "North",
    (Sequence.mk [Sample.key "n0.png" false; Sample.key "n1.png" true]), 0.
  repeat (split; [first [reflexivity | discriminate | lia] |]). reflexivity.
Defined.

(** X4. With a current sequence and a keyframe index present,
    [currentKeyframe] is none exactly when the index is negative or not
    below the number of keyframes: an out-of-range index is "no current
    keyframe", not an error. *)
Theorem currentKeyframe_out_of_range `{JS.Host}
        (state : AppState) (d : Document.t) (s : Sequence.t) (i : Z) :
  Getters.currentDocument state = Some d ->
  Getters.currentSequence state = JS.Normal (JS.Own s) ->
  Document.currentKeyframeIndex d = Some i ->
  (Getters.currentKeyframe state = JS.Normal None <->
   i < 0 \/ Z.of_nat (List.length (Sequence.keyframes s)) <= i)
  /\ (Getters.currentKeyframe state = JS.Normal None ->
      Getters.selectedHitboxes state = JS.Normal None).
Proof.
  intros Hd Hs Hi. split.
  - unfold Getters.currentKeyframe, Getters.currentIndex. rewrite Hs, Hd, Hi.
    unfold JS.arrayGet. destruct (Z.ltb_spec i 0) as [Hneg | Hpos].
    + split; [intros _; left; exact Hneg | reflexivity].
    + split.
      * intros [= Hnone]. apply List.nth_error_None in Hnone. right. lia.
      * intros [Hneg | Hlen]; [lia |]. f_equal. apply List.nth_error_None. lia.
  - intros Hk. unfold Getters.selectedHitboxes. rewrite Hk. reflexivity.
Qed.

Lemma currentKeyframe_out_of_range_sample :
  (exists d s,
      Getters.currentDocument View.overrun = Some d
      /\ @Getters.currentSequence JS.plain View.overrun = JS.Normal (JS.Own s)
      /\ Document.currentKeyframeIndex d = Some 2
      /\ List.length (Sequence.keyframes s) = 2%nat)
  /\ @Getters.currentKeyframe JS.plain View.overrun = JS.Normal None
  /\ @Getters.selectedHitboxes JS.plain View.overrun = JS.Normal None.
Proof.
  split; [eexists _, _; repeat split; reflexivity |].
  pose proof (@currentKeyframe_out_of_range JS.plain View.overrun _ _ 2
                eq_refl eq_refl eq_refl) as [Hiff Hboxes].
  assert (Hnone : @Getters.currentKeyframe JS.plain View.overrun = JS.Normal None)
    by (apply (proj2 Hiff); right; cbn; lia).
  split; [exact Hnone | exact (Hboxes Hnone)].
Defined.

(** X5. An empty current animation name means "no current animation",
    even when the sheet has an animation stored under the empty name: the
    animation, sequence, keyframe, selected keyframes and selected
    hitboxes are all none.  The same holds for the sequence and what
    depends on it when the current direction is the empty string. *)
Theorem empty_name_is_no_selection `{JS.Host} (state : AppState) (d : Document.t) :
  Getters.currentDocument state = Some d ->
  (Document.currentAnimationName d = Some "" ->
   Getters.currentAnimation state = JS.Absent
   /\ Getters.currentSequence state = JS.Normal JS.Absent
   /\ Getters.currentKeyframe state = JS.Normal None
   /\ Getters.selectedKeyframes state = JS.Normal None
   /\ Getters.selectedHitboxes state = JS.Normal None)
  /\ (Document.currentSequenceDirection d = Some "" ->
      Getters.currentSequence state = JS.Normal JS.Absent
      /\ Getters.currentKeyframe state = JS.Normal None
      /\ Getters.selectedHitboxes state = JS.Normal None).
Proof.
  intros Hd. split.
  - intros Hn.
    assert (Ha : Getters.currentAnimation state = JS.Absent)
      by (unfold Getters.currentAnimation; rewrite Hd, Hn; reflexivity).
    assert (Hs : Getters.currentSequence state = JS.Normal JS.Absent)
      by (unfold Getters.currentSequence; rewrite Ha; reflexivity).
    assert (Hk : Getters.currentKeyframe state = JS.Normal None)
      by (unfold Getters.currentKeyframe; rewrite Hs; reflexivity).
    repeat (split; [assumption |]). split.
    + unfold Getters.selectedKeyframes. rewrite Ha. reflexivity.
    + unfold Getters.selectedHitboxes. rewrite Hk. reflexivity.
  - intros Hdir.
    assert (Hs : Getters.currentSequence state = JS.Normal JS.Absent).
    { unfold Getters.currentSequence, Getters.currentDirection. rewrite Hd, Hdir.
      destruct (Getters.currentAnimation state); reflexivity. }
    assert (Hk : Getters.currentKeyframe state = JS.Normal None)
      by (unfold Getters.currentKeyframe; rewrite Hs; reflexivity).
    repeat (split; [assumption |]).
    unfold Getters.selectedHitboxes. rewrite Hk. reflexivity.
Qed.

Lemma empty_name_is_no_selection_sample :
  (exists d a,
      Getters.currentDocument View.unnamed = Some d
      /\ Document.currentAnimationName d = Some ""
      /\ JS.getProp (Sheet.animations (Document.sheet d)) "" = Some a)
  /\ @Getters.currentAnimation JS.plain View.unnamed = JS.Absent
  /\ @Getters.selectedKeyframes JS.plain View.unnamed = JS.Normal None.
Proof.
  split; [eexists _, _; repeat split; reflexivity |].
  pose proof (proj1 (@empty_name_is_no_selection JS.plain View.unnamed _ eq_refl) eq_refl)
    as Hall.
  split; apply Hall.
Defined.

(** *** Order of [sortedAnimations] *)

(** [s1 <= s2] in the order of character codes. *)
Lemma string_le_trans (s1 s2 s3 : string) :
  String.compare s1 s2 <> Gt -> String.compare s2 s3 <> Gt -> String.compare s1 s3 <> Gt.
Proof.
  revert s2 s3. induction s1 as [| c1 s1 IH]; intros [| c2 s2] [| c3 s3];
    cbn [String.compare]; try congruence.
  unfold Ascii.compare.
  destruct (N.compare_spec (N_of_ascii c1) (N_of_ascii c2)) as [E12 | L12 | G12];
    destruct (N.compare_spec (N_of_ascii c2) (N_of_ascii c3)) as [E23 | L23 | G23];
    destruct (N.compare_spec (N_of_ascii c1) (N_of_ascii c3)) as [E13 | L13 | G13];
    try congruence; try lia.
  apply IH.
Qed.

Lemma asciiLess_false (a b : string) :
  JS.asciiLess b a = false <-> String.compare a b <> Gt.
Proof.
  unfold JS.asciiLess. rewrite (String.compare_antisym b a).
  destruct (String.compare a b); cbn [CompOpp]; split; congruence.
Qed.

(** The order of character codes is a strict total order. *)
Lemma ascii_strict_order : JS.StrictOrder JS.asciiLess.
Proof.
  split.
  - intros a b Hab. apply asciiLess_false. unfold JS.asciiLess in Hab.
    destruct (String.compare a b); congruence.
  - intros a b c. rewrite !asciiLess_false. apply string_le_trans.
Qed.

Lemma insertBy_permutation {A} (cmp : A -> A -> Z) (x : A) (l : list A) :
  Permutation (x :: l) (JS.insertBy cmp x l).
Proof.
  induction l as [| y l IH]; cbn [JS.insertBy]; [reflexivity |].
  destruct (0 <? cmp x y); [| reflexivity].
  rewrite perm_swap. apply perm_skip, IH.
Qed.

Lemma sorted_permutation {A} (cmp : A -> A -> Z) (l : list A) :
  Permutation l (JS.sorted cmp l).
Proof.
  unfold JS.sorted. induction l as [| x l IH]; cbn [List.fold_right]; [reflexivity |].
  rewrite <- insertBy_permutation. apply perm_skip, IH.
Qed.

Lemma filter_permutation {A} (p : A -> bool) (l l' : list A) :
  Permutation l l' -> Permutation (List.filter p l) (List.filter p l').
Proof.
  induction 1 as [| x l l' _ IH | x y l | l l' l'' _ IH1 _ IH2]; cbn [List.filter].
  - reflexivity.
  - destruct (p x); [apply perm_skip |]; exact IH.
  - destruct (p x), (p y); try reflexivity. apply perm_swap.
  - etransitivity; eassumption.
Qed.

Lemma filter_strongly_sorted {A} (R : A -> A -> Prop) (p : A -> bool) (l : list A) :
  StronglySorted R l -> StronglySorted R (List.filter p l).
Proof.
  induction 1 as [| a l Hl IH Ha]; cbn [List.filter]; [constructor |].
  destruct (p a); [| exact IH].
  constructor; [exact IH |].
  apply List.Forall_forall. intros b Hb. apply List.filter_In in Hb as [Hb _].
  exact (proj1 (List.Forall_forall _ _) Ha b Hb).
Qed.

Section Order.

Context `{JS.Host}.

Hypothesis lessThan_order : JS.StrictOrder JS.lessThan.

Lemma byLowerName_trans (a b c : Animation.t) :
  View.byLowerName a b -> View.byLowerName b c -> View.byLowerName a c.
Proof using lessThan_order. unfold View.byLowerName. apply (proj2 lessThan_order). Qed.

(** The comparator puts [x] after [y] only when [y] may stand before
    [x], and before [y] only when [x] may stand before [y]. *)
Lemma compareNames_after (x y : Animation.t) :
  0 < Getters.compareNames x y -> View.byLowerName y x.
Proof.
  unfold Getters.compareNames, View.byLowerName, View.sortKey.
  destruct (JS.lessThan (JS.toLowerCase (Animation.name x))
              (JS.toLowerCase (Animation.name y))); [lia | reflexivity].
Qed.

Lemma compareNames_before (x y : Animation.t) :
  ~ 0 < Getters.compareNames x y -> View.byLowerName x y.
Proof using lessThan_order.
  unfold Getters.compareNames, View.byLowerName, View.sortKey.
  destruct (JS.lessThan (JS.toLowerCase (Animation.name x))
              (JS.toLowerCase (Animation.name y))) eqn:Hxy.
  - intros _. apply (proj1 lessThan_order), Hxy.
  - destruct (JS.lessThan (JS.toLowerCase (Animation.name y))
                (JS.toLowerCase (Animation.name x))); [lia | reflexivity].
Qed.

Lemma insertBy_names_sorted (x : Animation.t) (l : list Animation.t) :
  StronglySorted View.byLowerName l ->
  StronglySorted View.byLowerName (JS.insertBy Getters.compareNames x l).
Proof using lessThan_order.
  induction 1 as [| y l Hl IH Hy]; cbn [JS.insertBy].
  - repeat constructor.
  - destruct (Z.ltb_spec 0 (Getters.compareNames x y)) as [Hgt | Hle].
    + constructor; [exact IH |].
      rewrite <- insertBy_permutation. constructor; [| exact Hy].
      apply compareNames_after, Hgt.
    + assert (Hxy : View.byLowerName x y) by (apply compareNames_before; lia).
      constructor; [constructor; assumption |].
      constructor; [exact Hxy |].
      eapply List.Forall_impl; [| exact Hy].
      intros z Hz. exact (byLowerName_trans _ _ _ Hxy Hz).
Qed.

Lemma sorted_names_sorted (l : list Animation.t) :
  StronglySorted View.byLowerName (JS.sorted Getters.compareNames l).
Proof using lessThan_order.
  unfold JS.sorted. induction l as [| x l IH]; cbn [List.fold_right].
  - constructor.
  - apply insertBy_names_sorted, IH.
Qed.

End Order.

(** X6. With a current document, [sortedAnimations] is a rearrangement
    of the values of its animation map (nothing lost, nothing repeated)
    in which no animation comes before one whose lower-cased name is
    smaller; this for whatever [toLowerCase] does and for every strict
    total order [<] on strings. *)
Theorem sortedAnimations_sorted_permutation `{JS.Host}
        (state : AppState) (d : Document.t) :
  JS.StrictOrder JS.lessThan ->
  Getters.currentDocument state = Some d ->
  exists l,
    Getters.sortedAnimations state = Some l
    /\ Permutation (JS.objectValues (Sheet.animations (Document.sheet d))) l
    /\ StronglySorted View.byLowerName l.
Proof.
  intros Horder Hd. unfold Getters.sortedAnimations. rewrite Hd.
  eexists. split; [reflexivity |]. split.
  - apply sorted_permutation.
  - apply sorted_names_sorted, Horder.
Qed.

Lemma sortedAnimations_sorted_permutation_sample :
  JS.StrictOrder JS.asciiLess
  /\ Getters.currentDocument Sample.editing
     = Some (Sample.hero [Frame.mk "n0.png" false] false)
  /\ exists l,
      @Getters.sortedAnimations JS.plain Sample.editing = Some l
      /\ Permutation [Sample.walk; Sample.attack; Sample.jump] l
      /\ StronglySorted (@View.byLowerName JS.plain) l.
Proof.
  split; [exact ascii_strict_order | split; [reflexivity |]].
  exact (@sortedAnimations_sorted_permutation JS.plain Sample.editing _
           ascii_strict_order eq_refl).
Defined.

(** X7. With a current document, [selectedAnimations] is a
    rearrangement of the animations of its sheet whose [selected] flag is
    set (each of them once, and nothing else), ordered by lower-cased
    name like [sortedAnimations]. *)
Theorem selectedAnimations_exact `{JS.Host} (state : AppState) (d : Document.t) :
  JS.StrictOrder JS.lessThan ->
  Getters.currentDocument state = Some d ->
  exists l,
    Getters.selectedAnimations state = Some l
    /\ Permutation
         (List.filter Animation.selected
            (JS.objectValues (Sheet.animations (Document.sheet d))))
         l
    /\ StronglySorted View.byLowerName l.
Proof.
  intros Horder Hd.
  unfold Getters.selectedAnimations, Getters.sortedAnimations. rewrite Hd.
  eexists. split; [reflexivity |]. split.
  - apply filter_permutation, sorted_permutation.
  - apply filter_strongly_sorted, sorted_names_sorted, Horder.
Qed.

Lemma selectedAnimations_exact_sample :
  JS.StrictOrder JS.asciiLess
  /\ @Getters.selectedAnimations JS.plain Sample.picked
     = Some [Animation.mk "attack" true []; Animation.mk "Walk" true []]
  /\ exists l,
      @Getters.selectedAnimations JS.plain Sample.picked = Some l
      /\ Permutation [Animation.mk "Walk" true []; Animation.mk "attack" true []] l
      /\ StronglySorted (@View.byLowerName JS.plain) l.
Proof.
  split; [exact ascii_strict_order | split; [reflexivity |]].
  exact (@selectedAnimations_exact JS.plain Sample.picked _ ascii_strict_order eq_refl).
Defined.

Lemma orElse_true (x y : JS.Completion bool) :
  JS.orElse x y = JS.Normal true <->
  x = JS.Normal true \/ (x = JS.Normal false /\ y = JS.Normal true).
Proof.
  destruct x as [[|] |]; cbn [JS.orElse]; split;
    try (intros [Hx | [Hx Hy]]); try discriminate; auto.
Qed.

(** X8. Whatever can be cut can be copied, and the only way to be able
    to copy without being able to cut is a non-empty frame selection. *)
Theorem canCopy_is_canCut_or_frames `{JS.Host} (state : AppState) :
  (Getters.canCut state = JS.Normal true -> Getters.canCopy state = JS.Normal true)
  /\ (Getters.canCopy state = JS.Normal true <->
      Getters.canCut state = JS.Normal true
      \/ Spec.nonEmpty (Getters.selectedFrames state)).
Proof.
  assert (Hiff : Getters.canCopy state = JS.Normal true <->
                 Getters.canCut state = JS.Normal true
                 \/ Spec.nonEmpty (Getters.selectedFrames state)).
  { unfold Getters.canCut, Getters.canCopy. rewrite <- hasLength_nonEmpty.
    destruct (JS.hasLength (Getters.selectedFrames state));
      destruct (JS.hasLength (Getters.selectedAnimations state));
      destruct (JS.lengthy (Getters.selectedKeyframes state)) as [[|] |];
      destruct (JS.lengthy (Getters.selectedHitboxes state)) as [[|] |];
      cbn [JS.orElse]; split; auto; intros [Hc | Hf]; congruence. }
  split; [intros Hcut; apply Hiff; left; exact Hcut | exact Hiff].
Qed.

Lemma canCopy_is_canCut_or_frames_sample :
  @Getters.canCut JS.plain Sample.editing = JS.Normal true
  /\ @Getters.canCopy JS.plain Sample.editing = JS.Normal true.
Proof.
  split; [reflexivity |].
  exact (proj1 (@canCopy_is_canCut_or_frames JS.plain Sample.editing) eq_refl).
Defined.

Lemma getProp_in_values {A} (o : JS.Dict A) (k : string) (v : A) :
  JS.getProp o k = Some v -> In v (JS.objectValues o).
Proof.
  induction o as [| [k' v'] o IH]; cbn [JS.getProp JS.objectValues List.map snd];
    [discriminate |].
  destruct (String.eqb k' k); [intros [= ->]; left; reflexivity | right; apply IH; assumption].
Qed.

(** X9. When [currentAnimation] returns an animation of the sheet, that
    animation is one of [sortedAnimations]; and a current keyframe whose
    [selected] flag is set is always one of [selectedKeyframes]. *)
Theorem current_entities_belong_to_views `{JS.Host} (state : AppState) :
  (forall a,
      Getters.currentAnimation state = JS.Own a ->
      exists l, Getters.sortedAnimations state = Some l /\ In a l)
  /\ (forall k,
         Getters.currentKeyframe state = JS.Normal (Some k) ->
         Keyframe.selected k = true ->
         exists l, Getters.selectedKeyframes state = JS.Normal (Some l) /\ In k l).
Proof.
  split.
  - intros a Ha. unfold Getters.currentAnimation in Ha.
    destruct (Getters.currentDocument state) as [d |] eqn:Hd; [| discriminate].
    destruct (JS.truthyString _) as [n |]; [| discriminate].
    apply lookup_own in Ha.
    unfold Getters.sortedAnimations. rewrite Hd. eexists. split; [reflexivity |].
    eapply Permutation_in; [apply sorted_permutation |]. eapply getProp_in_values, Ha.
  - intros k Hk Hsel.
    unfold Getters.currentKeyframe, Getters.currentSequence in Hk.
    unfold Getters.selectedKeyframes.
    destruct (Getters.currentAnimation state) as [a | m |]; cycle 1.
    + destruct (Getters.currentDirection state); [discriminate |].
      cbn in Hk. discriminate.
    + cbn in Hk. discriminate.
    + destruct (Getters.currentDirection state) as [dir |]; [| discriminate].
      destruct (JS.lookup _ dir) as [s | m |] eqn:Hs; cycle 1.
      * destruct (Getters.currentIndex state); discriminate.
      * discriminate.
      * apply lookup_own in Hs.
        destruct (Getters.currentIndex state) as [i |]; [| discriminate].
        injection Hk as Hk. apply arrayGet_some in Hk as [_ Hk].
        eexists. split; [reflexivity |].
        apply List.in_flat_map. exists s. split.
        -- eapply getProp_in_values, Hs.
        -- apply List.filter_In. split; [| exact Hsel].
           eapply List.nth_error_In, Hk.
Qed.

Lemma current_entities_belong_to_views_sample :
  @Getters.currentAnimation JS.plain Sample.editing = JS.Own Sample.walk
  /\ exists l, @Getters.sortedAnimations JS.plain Sample.editing = Some l /\ In Sample.walk l.
Proof.
  split; [reflexivity |].
  exact (proj1 (@current_entities_belong_to_views JS.plain Sample.editing)
           Sample.walk eq_refl).
Defined.

(* ===================================================================== *)
(** * Further properties of the keyboard handler *)
(* ===================================================================== *)

(** X10. One key event starts at most one backend command. *)
Theorem at_most_one_command_per_key
        (state : AppState) (activeElement : option Keyboard.Element)
        (event : Keyboard.KeyboardEvent) (h : Keyboard.Handled) :
  Keyboard.onKeyDown state activeElement event = Some h ->
  (List.length (Keyboard.calls h) <= 1)%nat.
Proof.
  unfold Keyboard.onKeyDown. destruct activeElement as [el |]; [| discriminate].
  destruct (String.eqb (Keyboard.tagName el) "INPUT"); [intros [= <-]; cbn; lia |].
  destruct (Keyboard.ctrlKey event); intros [= <-].
  - unfold Keyboard.withControl. cbv zeta. by_key; cbn; by_flag; cbn; lia.
  - unfold Keyboard.withoutControl, Keyboard.onEscape. cbv zeta.
    by_key; cbn; by_flag; cbn; lia.
Qed.

Lemma at_most_one_command_per_key_sample :
  exists h,
    Keyboard.onKeyDown Sample.failedWhileClosing (Some Sample.canvas)
      (Keyboard.press "Escape") = Some h
    /\ (List.length (Keyboard.calls h) <= 1)%nat.
Proof.
  eexists. split; [reflexivity |].
  exact (at_most_one_command_per_key Sample.failedWhileClosing (Some Sample.canvas)
           (Keyboard.press "Escape") _ eq_refl).
Defined.

(** X11. The handler looks at the store only for control+"S" (the path
    handed to [saveAs]), for an unmodified space (is the timeline
    playing) and for an unmodified Escape: on every other event it does
    the same whatever the state. *)
Theorem shortcuts_ignore_the_state
        (s1 s2 : AppState) (activeElement : option Keyboard.Element)
        (event : Keyboard.KeyboardEvent) :
  (Keyboard.ctrlKey event = true -> Keyboard.key event <> "S") ->
  (Keyboard.ctrlKey event = false ->
   Keyboard.key event <> " " /\ Keyboard.key event <> "Escape") ->
  Keyboard.onKeyDown s1 activeElement event = Keyboard.onKeyDown s2 activeElement event.
Proof.
  intros Hctrl Hplain. unfold Keyboard.onKeyDown.
  destruct activeElement as [el |]; [| reflexivity].
  destruct (String.eqb (Keyboard.tagName el) "INPUT"); [reflexivity |].
  destruct (Keyboard.ctrlKey event); f_equal.
  - specialize (Hctrl eq_refl). unfold Keyboard.withControl. cbv zeta.
    by_key; try reflexivity. congruence.
  - destruct (Hplain eq_refl) as [Hspace Hesc].
    unfold Keyboard.withoutControl. cbv zeta.
    by_key; try reflexivity; congruence.
Qed.

Lemma shortcuts_ignore_the_state_sample :
  Keyboard.onKeyDown Sample.editing (Some Sample.canvas) (Keys.chord "z")
  = Keyboard.onKeyDown Sample.failedWhileClosing (Some Sample.canvas) (Keys.chord "z").
Proof.
  apply (shortcuts_ignore_the_state Sample.editing Sample.failedWhileClosing
           (Some Sample.canvas) (Keys.chord "z")).
  - intros _. discriminate.
  - intros Hctrl. discriminate Hctrl.
Defined.

(** X12. An unmodified space outside an [<input>], on an element that
    is not keyboard-interactive (tabIndex -1), pauses when the current
    document's timeline is playing and plays otherwise, also when no
    document is open, and suppresses the default action; on a
    keyboard-interactive element it does nothing. *)
Theorem space_toggles_playback
        (state : AppState) (el : Keyboard.Element) (event : Keyboard.KeyboardEvent) :
  Keyboard.tagName el <> "INPUT" ->
  Keyboard.ctrlKey event = false ->
  Keyboard.key event = " " ->
  (Keyboard.tabIndex el = -1 ->
   (forall d, Getters.currentDocument state = Some d ->
              Document.timelineIsPlaying d = true ->
              Keyboard.onKeyDown state (Some el) event
              = Some (Keyboard.preventAndCall Keyboard.pause))
   /\ (forall d, Getters.currentDocument state = Some d ->
                 Document.timelineIsPlaying d = false ->
                 Keyboard.onKeyDown state (Some el) event
                 = Some (Keyboard.preventAndCall Keyboard.play))
   /\ (Getters.currentDocument state = None ->
       Keyboard.onKeyDown state (Some el) event
       = Some (Keyboard.preventAndCall Keyboard.play)))
  /\ (Keyboard.tabIndex el <> -1 ->
      Keyboard.onKeyDown state (Some el) event = Some Keyboard.nothing).
Proof.
  intros Htag Hctrl Hkey.
  rewrite (onKeyDown_plain _ _ _ Htag Hctrl).
  unfold Keyboard.withoutControl. rewrite Hkey.
  change (String.eqb " " " ") with true. cbv iota zeta.
  unfold Keyboard.ofCurrentDocument.
  destruct (Z.eqb_spec (Keyboard.tabIndex el) (-1)) as [Htab | Htab]; cbn [negb]; split.
  - intros _. split; [| split].
    + intros d -> ->. reflexivity.
    + intros d -> ->. reflexivity.
    + intros ->. reflexivity.
  - intros Hne. contradiction.
  - intros Heq. contradiction.
  - intros _. reflexivity.
Qed.

Lemma space_toggles_playback_sample :
  Keyboard.tagName Sample.canvas <> "INPUT"
  /\ Getters.currentDocument View.initial = None
  /\ Keyboard.onKeyDown View.initial (Some Sample.canvas) (Keyboard.press " ")
     = Some (Keyboard.preventAndCall Keyboard.play).
Proof.
  assert (Htag : Keyboard.tagName Sample.canvas <> "INPUT") by discriminate.
  split; [exact Htag | split; [reflexivity |]].
  exact (proj2 (proj2 (proj1 (space_toggles_playback View.initial Sample.canvas
                                (Keyboard.press " ") Htag eq_refl eq_refl)
                         eq_refl))
           eq_refl).
Defined.

(** X13. The two families of bindings do not leak into each other:
    with the control key held, Delete, Home, End, F2, Enter and Escape do
    nothing (so control+Escape does not acknowledge an error), and without
    it none of the keys bound under control does anything. *)
Theorem control_separates_the_bindings
        (state : AppState) (el : Keyboard.Element) (event : Keyboard.KeyboardEvent) :
  (Keyboard.ctrlKey event = true ->
   In (Keyboard.key event) ["Delete"; "Home"; "End"; "F2"; "Enter"; "Escape"] ->
   Keyboard.onKeyDown state (Some el) event = Some Keyboard.nothing)
  /\ (Keyboard.ctrlKey event = false ->
      In (Keyboard.key event)
         ["n"; "o"; "s"; "S"; "e"; "E"; "w"; "W"; "z"; "Z"; "x"; "c"; "v";
          "+"; "="; "-"; "0"; "a"] ->
      Keyboard.onKeyDown state (Some el) event = Some Keyboard.nothing).
Proof.
  split; intros Hctrl Hkey; unfold Keyboard.onKeyDown;
    destruct (String.eqb (Keyboard.tagName el) "INPUT"); try reflexivity;
    rewrite Hctrl; f_equal;
    unfold Keyboard.withControl, Keyboard.withoutControl;
    cbn [In] in Hkey;
    repeat (destruct Hkey as [<- | Hkey]; [reflexivity |]);
    destruct Hkey.
Qed.

Lemma control_escape_is_ignored :
  Keyboard.onKeyDown Sample.failedWhileClosing (Some Sample.canvas) (Keys.chord "Escape")
  = Some Keyboard.nothing.
Proof.
  apply (proj1 (control_separates_the_bindings Sample.failedWhileClosing Sample.canvas
                  (Keys.chord "Escape")));
    [reflexivity | cbn; tauto].
Defined.

(** X14. The handler suppresses the browser's default action exactly
    for: control with "S", "E", "z" or "Z"; the four arrow keys without
    control; and space or Enter without control on an element that is not
    keyboard-interactive; never while an [<input>] has focus. *)
Theorem default_is_suppressed_exactly
        (state : AppState) (el : Keyboard.Element) (event : Keyboard.KeyboardEvent) :
  option_map Keyboard.defaultPrevented (Keyboard.onKeyDown state (Some el) event)
  = Some (Keys.suppressed el event).
Proof.
  unfold Keyboard.onKeyDown, Keys.suppressed, Keys.oneOf, Keys.arrows.
  cbn [List.existsb]. cbv zeta.
  destruct (String.eqb (Keyboard.tagName el) "INPUT"); [reflexivity |].
  cbn [negb andb option_map].
  destruct (Keyboard.ctrlKey event); f_equal.
  - unfold Keyboard.withControl. cbv zeta. by_key; cbn; by_flag; reflexivity.
  - unfold Keyboard.withoutControl, Keyboard.onEscape. cbv zeta.
    destruct (Keyboard.tabIndex el =? -1); by_key; cbn; by_flag; reflexivity.
Qed.

(** X15. The alt key changes the outcome only of control with "s",
    "+", "=", "-" or "0", and the shift flag only that of the arrow keys
    and of Home and End without control. *)
Theorem modifiers_matter_only_where_bound
        (state : AppState) (activeElement : option Keyboard.Element)
        (event : Keyboard.KeyboardEvent) (flag : bool) :
  ((Keyboard.ctrlKey event = true ->
    ~ In (Keyboard.key event) ["s"; "+"; "="; "-"; "0"]) ->
   Keyboard.onKeyDown state activeElement (Keys.withAlt flag event)
   = Keyboard.onKeyDown state activeElement event)
  /\ (~ In (Keyboard.key event) Keys.arrows ->
      (Keyboard.ctrlKey event = false -> ~ In (Keyboard.key event) ["Home"; "End"]) ->
      Keyboard.onKeyDown state activeElement (Keys.withShift flag event)
      = Keyboard.onKeyDown state activeElement event).
Proof.
  split.
  - intros Hkeys. unfold Keyboard.onKeyDown.
    destruct activeElement as [el |]; [| reflexivity].
    destruct (String.eqb (Keyboard.tagName el) "INPUT"); [reflexivity |].
    cbn [Keys.withAlt Keyboard.ctrlKey].
    destruct (Keyboard.ctrlKey event); [| reflexivity].
    f_equal. specialize (Hkeys eq_refl).
    unfold Keyboard.withControl. cbn [Keys.withAlt Keyboard.key Keyboard.altKey
                                        Keyboard.shiftKey]. cbv zeta.
    by_key; try reflexivity; exfalso; apply Hkeys; cbn [In]; auto 10.
  - intros Harrows Hends. unfold Keyboard.onKeyDown.
    destruct activeElement as [el |]; [| reflexivity].
    destruct (String.eqb (Keyboard.tagName el) "INPUT"); [reflexivity |].
    cbn [Keys.withShift Keyboard.ctrlKey].
    destruct (Keyboard.ctrlKey event); f_equal.
    + unfold Keyboard.withControl. cbn [Keys.withShift Keyboard.key Keyboard.altKey
                                          Keyboard.shiftKey]. cbv zeta.
      by_key; try reflexivity; exfalso; apply Harrows; cbn [In Keys.arrows]; auto 10.
    + specialize (Hends eq_refl).
      unfold Keyboard.withoutControl. cbn [Keys.withShift Keyboard.key Keyboard.altKey
                                             Keyboard.shiftKey]. cbv zeta.
      by_key; try reflexivity; exfalso;
        first [ apply Harrows; cbn [In Keys.arrows]; solve [auto 10]
              | apply Hends; cbn [In]; solve [auto 10] ].
Qed.

Lemma modifiers_matter_only_where_bound_sample :
  Keyboard.onKeyDown Sample.editing (Some Sample.canvas) (Keys.withAlt true (Keys.chord "z"))
  = Keyboard.onKeyDown Sample.editing (Some Sample.canvas) (Keys.chord "z").
Proof.
  apply (proj1 (modifiers_matter_only_where_bound Sample.editing (Some Sample.canvas)
                  (Keys.chord "z") true)).
  intros _ Hin. cbn [In Keys.chord Keyboard.key] in Hin.
  repeat (destruct Hin as [Hin | Hin]; [discriminate Hin |]). exact Hin.
Defined.


(* ===================================================================== *)
(** * Further properties of the command gateway *)
(* ===================================================================== *)

Section FlowFacts.

Context {State Patch : Type} `{PatchAction State Patch}.

Import Gateway.

(** What one event does to the store, the table of suspended calls and
    the next round-trip number. *)
Lemma step_shape (g g' : @t State) (e : @Event State Patch)
      (out : list (@Effect State Patch)) :
  step g e = Some (g', out) ->
  store g' = Flow.absorbOne (store g) e
  /\ match e with
     | Call c => pending g' = <[nextId g := c]> (pending g) /\ nextId g' = S (nextId g)
     | Fulfil id _ | Reject id =>
         is_Some (pending g !! id)
         /\ pending g' = delete id (pending g) /\ nextId g' = nextId g
     end.
Proof.
  destruct e as [c | id r | id]; cbn [step Flow.absorbOne].
  - intros [= <- _]. cbn. auto.
  - destruct (pending g !! id) as [c |] eqn:Hid; [| discriminate].
    destruct r as [p | s]; destruct (Api.assignsState c); try discriminate.
    + destruct (patch (store g) p) as [s' failure]. intros [= <- _]. cbn. eauto.
    + intros [= <- _]. cbn. eauto.
  - destruct (pending g !! id) as [c |] eqn:Hid; [| discriminate].
    intros [= <- _]. cbn. eauto.
Qed.

Lemma run_step (g g' : @t State) (e : @Event State Patch)
      (es : list (@Event State Patch)) (tr : list (@Effect State Patch)) :
  run g (e :: es) = Some (g', tr) ->
  exists g1 out tr',
    step g e = Some (g1, out) /\ run g1 es = Some (g', tr') /\ tr = out ++ tr'.
Proof.
  cbn [run]. destruct (step g e) as [[g1 out] |]; [| discriminate].
  destruct (run g1 es) as [[g2 tr'] |] eqn:Hrest; [| discriminate].
  intros [= <- <-]. exists g1, out, tr'. split; [| split]; [reflexivity | exact Hrest | reflexivity].
Qed.

Lemma run_store (es : list (@Event State Patch)) :
  forall (g g' : @t State) (tr : list (@Effect State Patch)),
    run g es = Some (g', tr) -> store g' = Flow.absorb (store g) es.
Proof.
  induction es as [| e es IH]; intros g g' tr Hrun.
  - injection Hrun as <- _. reflexivity.
  - apply run_step in Hrun as (g1 & out & tr' & Hstep & Hrun & _).
    apply step_shape in Hstep as [Hstore _].
    unfold Flow.absorb. cbn [List.fold_left]. rewrite <- Hstore.
    exact (IH _ _ _ Hrun).
Qed.

(** X16. After any sequence of calls, resolutions and rejections, the
    store holds the responses folded into the starting state in the order
    in which they resolved (a patch is applied, a [getState] snapshot is
    assigned onto the state), and they reached the store in that order. *)
Theorem store_follows_resolutions
        (es : list (@Event State Patch)) (g g' : @t State)
        (tr : list (@Effect State Patch)) :
  run g es = Some (g', tr) ->
  store g' = Flow.absorb (store g) es
  /\ applications tr = resolutions es.
Proof.
  intros Hrun. split.
  - exact (run_store es g g' tr Hrun).
  - exact (run_applications es g g' tr Hrun).
Qed.

Lemma absorb_without_resolution (es : list (@Event State Patch)) (s : State) :
  resolutions es = [] -> Flow.absorb s es = s.
Proof.
  unfold Flow.absorb. induction es as [| e es IH]; [reflexivity |].
  destruct e; cbn [resolutions List.fold_left Flow.absorbOne]; [exact IH | discriminate | exact IH].
Qed.

(** X17. Calling wrappers and having round-trips rejected never changes
    the store: as long as no response has resolved, the state is the one
    the run started from and nothing has been applied. *)
Theorem only_resolutions_change_the_store
        (es : list (@Event State Patch)) (g g' : @t State)
        (tr : list (@Effect State Patch)) :
  resolutions es = [] ->
  run g es = Some (g', tr) ->
  store g' = store g /\ applications tr = [].
Proof.
  intros Hnone Hrun. split.
  - rewrite (run_store es g g' tr Hrun). apply absorb_without_resolution, Hnone.
  - rewrite (run_applications es g g' tr Hrun). exact Hnone.
Qed.

Lemma run_app (es1 es2 : list (@Event State Patch)) :
  forall (g g' : @t State) (tr : list (@Effect State Patch)),
    run g (es1 ++ es2) = Some (g', tr) ->
    exists g1 tr1 tr2,
      run g es1 = Some (g1, tr1) /\ run g1 es2 = Some (g', tr2) /\ tr = tr1 ++ tr2.
Proof.
  induction es1 as [| e es1 IH]; intros g g' tr Hrun.
  - exists g, [], tr. repeat split. exact Hrun.
  - change ((e :: es1) ++ es2) with (e :: (es1 ++ es2)) in Hrun.
    apply run_step in Hrun as (g0 & out & tr' & Hstep & Hrun & ->).
    apply IH in Hrun as (g1 & tr1 & tr2 & Hrun1 & Hrun2 & ->).
    exists g1, (out ++ tr1), tr2. split; [| split; [exact Hrun2 | apply app_assoc]].
    cbn [run]. rewrite Hstep, Hrun1. reflexivity.
Qed.

Lemma step_wellFormed (g g' : @t State) (e : @Event State Patch)
      (out : list (@Effect State Patch)) :
  Flow.wellFormed g -> step g e = Some (g', out) -> Flow.wellFormed g'.
Proof.
  intros Hwf Hstep id Hid. apply step_shape in Hstep as [_ Hshape].
  destruct e as [c | id' r | id'].
  - destruct Hshape as [Hp Hn]. rewrite Hp, Hn in *.
    rewrite lookup_insert_ne by lia. apply Hwf. lia.
  - destruct Hshape as (_ & Hp & Hn). rewrite Hp, Hn in *.
    destruct (decide (id' = id)) as [-> | Hne];
      [apply lookup_delete_eq | rewrite lookup_delete_ne by exact Hne; apply Hwf, Hid].
  - destruct Hshape as (_ & Hp & Hn). rewrite Hp, Hn in *.
    destruct (decide (id' = id)) as [-> | Hne];
      [apply lookup_delete_eq | rewrite lookup_delete_ne by exact Hne; apply Hwf, Hid].
Qed.

(** Round-trip numbers are never reused: starting from a gateway
    whose numbers from [nextId] on are free, after any run they still are,
    the next number has advanced by the number of calls, and so a new call
    never takes the place of a suspended one. *)
Theorem round_trip_numbers_stay_fresh (es : list (@Event State Patch)) :
  forall (g g' : @t State) (tr : list (@Effect State Patch)),
    Flow.wellFormed g ->
    run g es = Some (g', tr) ->
    Flow.wellFormed g'
    /\ nextId g' = (nextId g + Flow.issued es)%nat
    /\ pending g' !! nextId g' = None.
Proof.
  induction es as [| e es IH]; intros g g' tr Hwf Hrun.
  - injection Hrun as <- _. cbn [Flow.issued].
    split; [exact Hwf | split; [lia | apply Hwf; lia]].
  - apply run_step in Hrun as (g1 & out & tr' & Hstep & Hrun & _).
    pose proof (step_wellFormed _ _ _ _ Hwf Hstep) as Hwf1.
    destruct (IH _ _ _ Hwf1 Hrun) as (Hwf' & Hn & Hfree).
    split; [exact Hwf' | split; [| exact Hfree]].
    apply step_shape in Hstep as [_ Hshape]. rewrite Hn.
    destruct e; cbn [Flow.issued]; [destruct Hshape as [_ ->] | destruct Hshape as (_ & _ & ->)
                                   | destruct Hshape as (_ & _ & ->)]; lia.
Qed.

(** X19. Every call is either still suspended or has settled exactly
    once: after any run from a gateway with free numbers, the suspended
    calls plus the settlements (resolutions and rejections) of the run
    number as many as the calls suspended at the start plus the calls of
    the run. *)
Theorem calls_are_suspended_or_settled (es : list (@Event State Patch)) :
  forall (g g' : @t State) (tr : list (@Effect State Patch)),
    Flow.wellFormed g ->
    run g es = Some (g', tr) ->
    (size (pending g') + Flow.settled es = size (pending g) + Flow.issued es)%nat.
Proof.
  induction es as [| e es IH]; intros g g' tr Hwf Hrun.
  - injection Hrun as <- _. reflexivity.
  - apply run_step in Hrun as (g1 & out & tr' & Hstep & Hrun & _).
    pose proof (step_wellFormed _ _ _ _ Hwf Hstep) as Hwf1.
    specialize (IH _ _ _ Hwf1 Hrun).
    apply step_shape in Hstep as [_ Hshape].
    destruct e as [c | id r | id]; cbn [Flow.settled Flow.issued].
    + destruct Hshape as [Hp _]. rewrite Hp in IH.
      rewrite map_size_insert_None in IH by (apply Hwf; lia). lia.
    + destruct Hshape as ([c Hc] & Hp & _). rewrite Hp in IH.
      rewrite (map_size_delete_Some id (pending g) (mk_is_Some _ _ Hc)) in IH.
      assert (size (pending g) <> 0)%nat
        by (intros Hz; apply map_size_empty_inv in Hz; rewrite Hz in Hc;
            rewrite lookup_empty in Hc; discriminate).
      lia.
    + destruct Hshape as ([c Hc] & Hp & _). rewrite Hp in IH.
      rewrite (map_size_delete_Some id (pending g) (mk_is_Some _ _ Hc)) in IH.
      assert (size (pending g) <> 0)%nat
        by (intros Hz; apply map_size_empty_inv in Hz; rewrite Hz in Hc;
            rewrite lookup_empty in Hc; discriminate).
      lia.
Qed.

(** X20. A round-trip that was rejected is over: whatever happens
    afterwards, no response of it reaches the store, and it can be
    neither fulfilled nor rejected a second time. *)
Theorem rejected_round_trip_is_over (g : @t State) (c : Api.Command) :
  let id := nextId g in
  exists g',
    run g [Call c; Reject id] = Some (g', [Invoked id c; Thrown id])
    /\ (forall r, step g' (Fulfil id r) = None)
    /\ step g' (Reject id) = None
    /\ forall es g'' tr',
        run g' es = Some (g'', tr') -> timesApplied id tr' = 0%nat.
Proof.
  intros id.
  set (g1 := mk (store g) (<[id := c]> (pending g)) (S id)).
  assert (Hc : pending g1 !! id = Some c) by apply lookup_insert_eq.
  set (g2 := mk (store g) (delete id (pending g1)) (S id)).
  assert (Hgone : pending g2 !! id = None) by apply lookup_delete_eq.
  exists g2. split; [| split; [| split]].
  - cbn [run step]. fold id. fold g1. rewrite Hc. reflexivity.
  - intros r. cbn [step]. rewrite Hgone. reflexivity.
  - cbn [step]. rewrite Hgone. reflexivity.
  - intros es g'' tr' Hrun. unfold timesApplied.
    rewrite (run_applications _ _ _ _ Hrun).
    rewrite (settled_never_resolves id es g2 g'' tr' Hgone (Nat.lt_succ_diag_r id) Hrun).
    reflexivity.
Qed.

End FlowFacts.


Lemma getProp_setProp {A} (o : JS.Dict A) (k k' : string) (v : A) :
  JS.getProp (Json.setProp o k v) k'
  = if String.eqb k k' then Some v else JS.getProp o k'.
Proof.
  induction o as [| [k0 v0] o IH]; cbn [Json.setProp JS.getProp].
  - destruct (String.eqb k k'); reflexivity.
  - destruct (String.eqb_spec k0 k) as [-> | Hne]; cbn [JS.getProp].
    + destruct (String.eqb k k'); reflexivity.
    + destruct (String.eqb_spec k0 k') as [-> | Hne'].
      * destruct (String.eqb_spec k k') as [-> | _]; [destruct Hne |]; reflexivity.
      * exact IH.
Qed.

(** A member of the target after [Object.assign]: the value the source
    gives it (the last one, should the source list a key twice), or else
    the value it had. *)
Lemma assign_member (target : JS.Dict Json.t) (source : Json.t) (k : string) :
  Json.child (Json.assign (Json.Obj target) source) k
  = match JS.getProp (rev (Json.ownEntries source)) k with
    | Some v => Some v
    | None => JS.getProp target k
    end.
Proof.
  unfold Json.assign. cbn [Json.child].
  rewrite <- (List.fold_left_rev_right
                (fun entry acc => Json.setProp acc (fst entry) (snd entry))).
  induction (rev (Json.ownEntries source)) as [| [k0 v0] entries IH];
    cbn [List.fold_right JS.getProp fst snd]; [reflexivity |].
  rewrite getProp_setProp, IH. destruct (String.eqb k0 k); reflexivity.
Qed.

(** X18. When the response of [getState] resolves, it is merged into
    the state rather than put in its place: every member the snapshot
    carries takes the snapshot's value, and every member it does not
    carry keeps what the patches that resolved earlier left there. *)
Theorem snapshot_merges_into_state
        (es : list (@Gateway.Event Json.t JsonPatch.Patch)) (id : nat)
        (snapshot : Json.t) (earlier : JS.Dict Json.t)
        (g g' : @Gateway.t Json.t) (tr : list (@Gateway.Effect Json.t JsonPatch.Patch)) :
  Gateway.run g (es ++ [Gateway.Fulfil id (Gateway.Snapshot snapshot)]) = Some (g', tr) ->
  Flow.absorb (Gateway.store g) es = Json.Obj earlier ->
  (exists g1, Gateway.run g es = Some (g1, removelast tr)
              /\ Gateway.pending g1 !! id = Some Api.getState
              /\ Gateway.store g1 = Json.Obj earlier)
  /\ forall k,
      Json.child (Gateway.store g') k
      = match JS.getProp (rev (Json.ownEntries snapshot)) k with
        | Some v => Some v
        | None => JS.getProp earlier k
        end.
Proof.
  intros Hrun Hearlier.
  apply run_app in Hrun as (g1 & tr1 & tr2 & Hrun1 & Hrun2 & ->).
  apply run_step in Hrun2 as (g2 & out & tr' & Hstep & Hrest & ->).
  injection Hrest as <- <-.
  pose proof (run_store _ _ _ _ Hrun1) as Hstore1. rewrite Hearlier in Hstore1.
  cbn [Gateway.step] in Hstep.
  destruct (Gateway.pending g1 !! id) as [c |] eqn:Hc; [| discriminate].
  destruct (Api.assignsState c) eqn:Hassigns; [| discriminate].
  injection Hstep as <- <-. split.
  - exists g1. split; [| split; [| exact Hstore1]].
    + rewrite app_nil_r, removelast_last. exact Hrun1.
    + destruct c; cbn [Api.assignsState] in Hassigns; try discriminate. exact Hc.
  - intros k. cbn [Gateway.store]. rewrite Hstore1. apply assign_member.
Qed.

Lemma idle_is_wellFormed : Flow.wellFormed Sample.idle.
Proof. intros id _. apply lookup_empty. Qed.

Lemma store_follows_resolutions_sample :
  exists g' tr,
    Gateway.run Sample.idle Runs.raced = Some (g', tr)
    /\ Json.child (Gateway.store g') "currentDocumentPath" = Some (Json.Str "a.tiger")
    /\ Gateway.applications tr = [1%nat; 0%nat].
Proof.
  destruct (Gateway.run Sample.idle Runs.raced) as [[g' tr] |] eqn:Hrun;
    [| vm_compute in Hrun; discriminate Hrun].
  exists g', tr. split; [reflexivity |].
  destruct (store_follows_resolutions Runs.raced Sample.idle g' tr Hrun) as [Hstore Happ].
  split; [rewrite Hstore; reflexivity | exact Happ].
Defined.

Lemma only_resolutions_change_the_store_sample :
  Gateway.resolutions Runs.stalled = []
  /\ exists g' tr,
      Gateway.run Sample.idle Runs.stalled = Some (g', tr)
      /\ Gateway.store g' = Json.initialState
      /\ Gateway.applications tr = [].
Proof.
  split; [reflexivity |].
  destruct (Gateway.run Sample.idle Runs.stalled) as [[g' tr] |] eqn:Hrun;
    [| vm_compute in Hrun; discriminate Hrun].
  exists g', tr. split; [reflexivity |].
  exact (only_resolutions_change_the_store Runs.stalled Sample.idle g' tr eq_refl Hrun).
Defined.

Lemma snapshot_merges_into_state_sample :
  exists g' tr,
    Gateway.run Sample.idle (Runs.refreshed ++ [Runs.partialSnapshot]) = Some (g', tr)
    /\ Json.child (Gateway.store g') "error" = Some (Json.Str "disk full")
    /\ Json.child (Gateway.store g') "currentDocumentPath" = Some (Json.Str "a.tiger").
Proof.
  destruct (Gateway.run Sample.idle (Runs.refreshed ++ [Runs.partialSnapshot]))
    as [[g' tr] |] eqn:Hrun; [| vm_compute in Hrun; discriminate Hrun].
  exists g', tr. split; [reflexivity |].
  destruct (snapshot_merges_into_state Runs.refreshed 1 Runs.errorOnly _
              Sample.idle g' tr Hrun eq_refl) as [_ Hmember].
  split; [exact (Hmember "error") | exact (Hmember "currentDocumentPath")].
Defined.

Lemma round_trip_numbers_stay_fresh_sample :
  Flow.wellFormed Sample.idle
  /\ exists g' tr,
      Gateway.run Sample.idle Runs.stalled = Some (g', tr)
      /\ Gateway.nextId g' = 2%nat
      /\ Gateway.pending g' !! 2%nat = None.
Proof.
  split; [exact idle_is_wellFormed |].
  destruct (Gateway.run Sample.idle Runs.stalled) as [[g' tr] |] eqn:Hrun;
    [| vm_compute in Hrun; discriminate Hrun].
  exists g', tr. split; [reflexivity |].
  destruct (round_trip_numbers_stay_fresh Runs.stalled Sample.idle g' tr
              idle_is_wellFormed Hrun) as (_ & Hnext & Hfree).
  rewrite Hnext in Hfree. split; [exact Hnext | exact Hfree].
Defined.

Lemma calls_are_suspended_or_settled_sample :
  Flow.wellFormed Sample.idle
  /\ exists g' tr,
      Gateway.run Sample.idle Runs.stalled = Some (g', tr)
      /\ size (Gateway.pending g') = 1%nat.
Proof.
  split; [exact idle_is_wellFormed |].
  destruct (Gateway.run Sample.idle Runs.stalled) as [[g' tr] |] eqn:Hrun;
    [| vm_compute in Hrun; discriminate Hrun].
  exists g', tr. split; [reflexivity |].
  pose proof (calls_are_suspended_or_settled Runs.stalled Sample.idle g' tr
                idle_is_wellFormed Hrun) as Hcount.
  cbn [Flow.settled Flow.issued Runs.stalled] in Hcount.
  change (size (Gateway.pending Sample.idle)) with 0%nat in Hcount. lia.
Defined.

Lemma rejected_round_trip_is_over_sample :
  exists g',
    Gateway.run Sample.idle [Gateway.Call Api.undo; Gateway.Reject 0]
    = Some (g', [Gateway.Invoked 0 Api.undo; Gateway.Thrown 0])
    /\ Gateway.step g' (Gateway.Fulfil 0 (Sample.focused "a.tiger")) = None.
Proof.
  destruct (rejected_round_trip_is_over Sample.idle Api.undo)
    as (g' & Hrun & Hfulfil & _).
  exists g'. split; [exact Hrun | apply Hfulfil].
Defined.
